(** * fast_update/copy.py: value encoders, lazy binary substitution and the
      COPY FROM streaming writer of django-fast-update

    Shallow embedding of [src/fast_update/copy.py].  Python [str] values are
    lists of Unicode code points, [bytes] are lists of [Byte.byte], Python
    exceptions are the [Raise] branch of [res], and the I/O performed by
    [copy_from] and [copy_update] is recorded as a trace of events. *)

From Stdlib Require Import Strings.String Strings.Ascii Strings.Byte.
From Stdlib Require Import DecimalString.
From Stdlib Require Import ZArith NArith Bool Lia List.
From Equations Require Import Equations.
Import ListNotations.

Set Warnings "-register-all".
Local Open Scope N_scope.
Local Open Scope list_scope.

(** ** Python strings and bytes *)

Definition char := N.
Definition str := list char.
Definition bytes := list byte.

(** Code points of an ASCII literal. *)
Definition u (s : string) : str := map N_of_ascii (list_ascii_of_string s).

Definition BACKSLASH : char := 92.
Definition DQUOTE : char := 34.
Definition NUL : char := 0.

Fixpoint starts_with (p s : str) : bool :=
  match p, s with
  | [], _ => true
  | a :: p', b :: s' => (a =? b) && starts_with p' s'
  | _ :: _, [] => false
  end.

(** [str.replace(old, new)] for a non-empty [old]: occurrences are found
    left to right and do not overlap; [skip] counts the characters of the
    current occurrence that are still to be dropped. *)
Fixpoint replace_from (old new : str) (skip : nat) (s : str) : str :=
  match s with
  | [] => []
  | c :: s' =>
      match skip with
      | S k => replace_from old new k s'
      | O =>
          if starts_with old s
          then new ++ replace_from old new (pred (length old)) s'
          else c :: replace_from old new 0 s'
      end
  end.

(** [s.replace(old, new)]; with an empty [old] Python puts [new] before every
    character and at the end. *)
Definition replace (old new s : str) : str :=
  match old with
  | [] => new ++ flat_map (fun c => c :: new) s
  | _ :: _ => replace_from old new 0 s
  end.

(** [sep.join(parts)] *)
Fixpoint join (sep : str) (parts : list str) : str :=
  match parts with
  | [] => []
  | [p] => p
  | p :: ps => p ++ sep ++ join sep ps
  end.

(** [str(z)] of a Python int. *)
Definition str_of_int (z : Z) : str :=
  u (NilZero.string_of_int (Z.to_int z)).

(** ** Exceptions and results *)

Inductive exn :=
| TypeError (msg : str)
| ValueError (msg : str)
| NotImplementedError (msg : str)
| UnicodeEncodeError
| LookupError (msg : str)
| KeyError (msg : str)
| FieldDoesNotExist (msg : str).

Inductive res (A : Type) :=
| Ok (a : A)
| Raise (e : exn).
Arguments Ok {A} a.
Arguments Raise {A} e.

Definition is_TypeError {A} (r : res A) : Prop :=
  exists msg, r = Raise (TypeError msg).

(** ** Python values seen by the encoders *)

(** Runtime classes tested with [isinstance]. *)
Inductive pyclass :=
| c_object | c_NoneType | c_bool | c_int | c_float | c_str | c_bytes
| c_memoryview | c_dict | c_date | c_datetime | c_time | c_timedelta
| c_Decimal | c_UUID | c_Range | c_user (name : string).

Definition pyclass_eqb (a b : pyclass) : bool :=
  match a, b with
  | c_object, c_object | c_NoneType, c_NoneType | c_bool, c_bool
  | c_int, c_int | c_float, c_float | c_str, c_str | c_bytes, c_bytes
  | c_memoryview, c_memoryview | c_dict, c_dict | c_date, c_date
  | c_datetime, c_datetime | c_time, c_time | c_timedelta, c_timedelta
  | c_Decimal, c_Decimal | c_UUID, c_UUID | c_Range, c_Range => true
  | c_user n, c_user m => String.eqb n m
  | _, _ => false
  end.

(** [cls.__mro__]: [bool] derives from [int], [datetime] from [date]. *)
Definition class_mro (c : pyclass) : list pyclass :=
  match c with
  | c_object => [c_object]
  | c_bool => [c_bool; c_int; c_object]
  | c_datetime => [c_datetime; c_date; c_object]
  | _ => [c; c_object]
  end.

(** A float, date, datetime, time, timedelta, Decimal or UUID is carried
    with its [str()] text, the only thing the module observes of it besides
    its class; a psycopg2 [Range] also carries its two bounds; [VOther] is an
    instance of a user class. *)
Inductive pyval :=
| VNone
| VBool (b : bool)
| VInt (z : Z)
| VStr (s : str)
| VBytes (b : bytes)
| VMemoryview (b : bytes)
| VDict (items : list (pyval * pyval))
| VFloat (text : str)
| VDate (text : str)
| VDatetime (text : str)
| VTime (text : str)
| VTimedelta (text : str)
| VDecimal (text : str)
| VUUID (text : str)
| VRange (lower upper : pyval) (text : str)
| VOther (cls : string) (text : str).

Definition type_of (v : pyval) : pyclass :=
  match v with
  | VNone => c_NoneType
  | VBool _ => c_bool
  | VInt _ => c_int
  | VStr _ => c_str
  | VBytes _ => c_bytes
  | VMemoryview _ => c_memoryview
  | VDict _ => c_dict
  | VFloat _ => c_float
  | VDate _ => c_date
  | VDatetime _ => c_datetime
  | VTime _ => c_time
  | VTimedelta _ => c_timedelta
  | VDecimal _ => c_Decimal
  | VUUID _ => c_UUID
  | VRange _ _ _ => c_Range
  | VOther cls _ => c_user cls
  end.

(** [isinstance(v, cls)] *)
Definition isinstance (v : pyval) (cls : pyclass) : bool :=
  existsb (pyclass_eqb cls) (class_mro (type_of v)).

(** [isinstance(v, (c1, c2))] *)
Definition isinstance_any (v : pyval) (clss : list pyclass) : bool :=
  existsb (isinstance v) clss.

(** The text [f'{cls}'] puts into an error message. *)
Definition class_repr (c : pyclass) : str :=
  match c with
  | c_object => u "<class 'object'>"
  | c_NoneType => u "<class 'NoneType'>"
  | c_bool => u "<class 'bool'>"
  | c_int => u "<class 'int'>"
  | c_float => u "<class 'float'>"
  | c_str => u "<class 'str'>"
  | c_bytes => u "<class 'bytes'>"
  | c_memoryview => u "<class 'memoryview'>"
  | c_dict => u "<class 'dict'>"
  | c_date => u "<class 'datetime.date'>"
  | c_datetime => u "<class 'datetime.datetime'>"
  | c_time => u "<class 'datetime.time'>"
  | c_timedelta => u "<class 'datetime.timedelta'>"
  | c_Decimal => u "<class 'decimal.Decimal'>"
  | c_UUID => u "<class 'uuid.UUID'>"
  | c_Range => u "<class 'psycopg2._range.Range'>"
  | c_user n => u "<class '" ++ u n ++ u "'>"
  end.

(** ** Constants of the module *)

(** [NULL = '\\N'] *)
Definition NULL : str := [BACKSLASH; 78].
(** [LAZY_PLACEHOLDER = '\x00'] *)
Definition LAZY_PLACEHOLDER : str := [NUL].
(** [LAZY_PLACEHOLDER_BYTE = b'\x00'] *)
Definition LAZY_PLACEHOLDER_BYTE : byte := x00.
(** [SQL_NULL = 'NULL'] *)
Definition SQL_NULL : str := u "NULL".

(** ** Escaping primitives *)

Definition text_escape (v : str) : str :=
  replace [11] [BACKSLASH; 118]
    (replace [9] [BACKSLASH; 116]
      (replace [13] [BACKSLASH; 114]
        (replace [10] [BACKSLASH; 110]
          (replace [12] [BACKSLASH; 102]
            (replace [8] [BACKSLASH; 98]
              (replace [BACKSLASH] [BACKSLASH; BACKSLASH] v)))))).

Definition quote (v : str) : str :=
  [DQUOTE] ++ replace [DQUOTE] [BACKSLASH; BACKSLASH; DQUOTE] v ++ [DQUOTE].

Definition text_escape_nested (v : str) : str :=
  replace [11] [BACKSLASH; 118]
    (replace [9] [BACKSLASH; 116]
      (replace [13] [BACKSLASH; 114]
        (replace [10] [BACKSLASH; 110]
          (replace [12] [BACKSLASH; 102]
            (replace [8] [BACKSLASH; 98]
              (replace [BACKSLASH]
                 [BACKSLASH; BACKSLASH; BACKSLASH; BACKSLASH] v)))))).

(** ** Bytes helpers *)

Definition len {A} (l : list A) : N := N.of_nat (List.length l).

(** [v[lo:hi]] for [0 <= lo]. *)
Definition slice {A} (v : list A) (lo hi : N) : list A :=
  firstn (N.to_nat (hi - lo)) (skipn (N.to_nat lo) v).

(** [v[lo:]] *)
Definition slice_from {A} (v : list A) (lo : N) : list A :=
  skipn (N.to_nat lo) v.

Definition byte_of_code (c : N) : byte :=
  match Byte.of_N c with Some b => b | None => x00 end.

Definition hex_digit (n : N) : char :=
  if n <? 10 then 48 + n else 87 + n.

Definition hex_of_byte (b : byte) : str :=
  let n := Byte.to_N b in [hex_digit (n / 16); hex_digit (n mod 16)].

(** [v.hex()] *)
Definition bytes_hex (v : bytes) : str := flat_map hex_of_byte v.

(** [binascii.b2a_hex(v)] *)
Definition b2a_hex (v : bytes) : bytes :=
  flat_map (fun b => map byte_of_code (hex_of_byte b)) v.

Fixpoint index_of (b : byte) (l : bytes) : option N :=
  match l with
  | [] => None
  | x :: l' =>
      if Byte.eqb x b then Some 0 else option_map N.succ (index_of b l')
  end.

(** [data.index(b, start)]; [None] is Python's [ValueError]. *)
Definition bytes_index (data : bytes) (b : byte) (start : N) : option N :=
  option_map (N.add start) (index_of b (slice_from data start)).

(** ** The lazy binary mechanism *)

(** What a deferred writer does with its file object: the [f.write] calls,
    in order. *)
Definition lazy_writer := bytes -> list bytes.
Definition lazy_entry : Type := lazy_writer * bytes.

Definition inspect {A} (a : A) : {b | a = b} := exist _ a eq_refl.

(** The [while (byte_pos < length)] loop of [_lazy_binary]. *)
Equations? _lazy_binary_while (v : bytes) (length_v byte_pos : N) : list bytes
  by wf (N.to_nat (length_v - byte_pos)) lt :=
  _lazy_binary_while v length_v byte_pos with inspect (byte_pos <? length_v) := {
    | exist _ true H =>
        b2a_hex (slice v byte_pos (byte_pos + 65536))
          :: _lazy_binary_while v length_v (byte_pos + 65536)
    | exist _ false H => [] }.
Proof. apply N.ltb_lt in H. lia. Qed.

Definition _lazy_binary : lazy_writer := fun v =>
  let length_v := len v in
  if length_v <=? 65536 then [b2a_hex v]
  else _lazy_binary_while v length_v 0.

(** [write_lazy(f, data, stack)] from position [idx] on: the writes made on
    [f], and whether [data.index] raised. *)
Fixpoint write_lazy_from (data : bytes) (stack : list lazy_entry) (idx : N)
  : list bytes * res unit :=
  match stack with
  | [] => ([slice_from data idx], Ok tt)
  | (writer, byte_object) :: stack' =>
      let old := idx in
      match bytes_index data LAZY_PLACEHOLDER_BYTE idx with
      | None => ([], Raise (ValueError (u "subsection not found")))
      | Some idx =>
          let (ws, r) := write_lazy_from data stack' (idx + 1) in
          (slice data old idx :: writer byte_object ++ ws, r)
      end
  end.

Definition write_lazy (data : bytes) (stack : list lazy_entry)
  : list bytes * res unit :=
  write_lazy_from data stack 0.

(** ** Type encoders *)

Definition encoder : Type :=
  pyval -> list lazy_entry -> res (pyval * list lazy_entry).

Definition expected (what : str) : exn := TypeError (u "expected " ++ what).

Definition Int : encoder := fun v lazy =>
  if isinstance v c_int then Ok (v, lazy)
  else Raise (expected (u "type " ++ class_repr c_int)).

Definition IntOrNone : encoder := fun v lazy =>
  match v with
  | VNone => Ok (VStr NULL, lazy)
  | _ =>
      if isinstance v c_int then Ok (v, lazy)
      else Raise (expected (u "type " ++ class_repr c_int ++ u " or None"))
  end.

(** ['\\\\x'], a Python literal of three characters. *)
Definition HEX_PREFIX : str := [BACKSLASH; BACKSLASH; 120].

Definition Binary : encoder := fun v lazy =>
  match v with
  | VMemoryview b | VBytes b =>
      if 4096 <? len b
      then Ok (VStr (HEX_PREFIX ++ LAZY_PLACEHOLDER), lazy ++ [(_lazy_binary, b)])
      else Ok (VStr (HEX_PREFIX ++ bytes_hex b), lazy)
  | _ =>
      Raise (expected (u "types " ++ class_repr c_memoryview ++ u " or "
                         ++ class_repr c_bytes))
  end.

Definition BinaryOrNone : encoder := fun v lazy =>
  match v with
  | VNone => Ok (VStr NULL, lazy)
  | VMemoryview b | VBytes b =>
      if 4096 <? len b
      then Ok (VStr (HEX_PREFIX ++ LAZY_PLACEHOLDER), lazy ++ [(_lazy_binary, b)])
      else Ok (VStr (HEX_PREFIX ++ bytes_hex b), lazy)
  | _ =>
      Raise (expected (u "types " ++ class_repr c_memoryview ++ u ", "
                         ++ class_repr c_bytes ++ u " or None"))
  end.

(** The shape shared by the encoders that test one class and pass the value
    along. *)
Definition pass_along (cls : pyclass) : encoder := fun v lazy =>
  if isinstance v cls then Ok (v, lazy)
  else Raise (expected (u "type " ++ class_repr cls)).

Definition pass_along_or_none (cls : pyclass) : encoder := fun v lazy =>
  match v with
  | VNone => Ok (VStr NULL, lazy)
  | _ =>
      if isinstance v cls then Ok (v, lazy)
      else Raise (expected (u "type " ++ class_repr cls ++ u " or None"))
  end.

Definition Boolean : encoder := pass_along c_bool.
Definition BooleanOrNone : encoder := pass_along_or_none c_bool.
Definition Date : encoder := pass_along c_date.
Definition DateOrNone : encoder := pass_along_or_none c_date.
Definition Datetime : encoder := pass_along c_datetime.
Definition DatetimeOrNone : encoder := pass_along_or_none c_datetime.
Definition Numeric : encoder := pass_along c_Decimal.
Definition NumericOrNone : encoder := pass_along_or_none c_Decimal.
Definition Duration : encoder := pass_along c_timedelta.
Definition DurationOrNone : encoder := pass_along_or_none c_timedelta.
Definition Time : encoder := pass_along c_time.
Definition TimeOrNone : encoder := pass_along_or_none c_time.
Definition Uuid : encoder := pass_along c_UUID.
Definition UuidOrNone : encoder := pass_along_or_none c_UUID.

Definition Float : encoder := fun v lazy =>
  if isinstance_any v [c_float; c_int] then Ok (v, lazy)
  else Raise (expected (u "types " ++ class_repr c_float ++ u " or "
                          ++ class_repr c_int)).

Definition FloatOrNone : encoder := fun v lazy =>
  match v with
  | VNone => Ok (VStr NULL, lazy)
  | _ =>
      if isinstance_any v [c_float; c_int] then Ok (v, lazy)
      else Raise (expected (u "types " ++ class_repr c_float ++ u ", "
                              ++ class_repr c_int ++ u " or None"))
  end.

Definition Text : encoder := fun v lazy =>
  match v with
  | VStr s => Ok (VStr (text_escape s), lazy)
  | _ => Raise (expected (u "type " ++ class_repr c_str))
  end.

Definition TextOrNone : encoder := fun v lazy =>
  match v with
  | VNone => Ok (VStr NULL, lazy)
  | VStr s => Ok (VStr (text_escape s), lazy)
  | _ => Raise (expected (u "type " ++ class_repr c_str ++ u " or None"))
  end.

(** The body of the [for k, v in v.items()] loop of [HStore], over the items
    in dict order; the first offending pair raises. *)
Fixpoint HStore_parts (items : list (pyval * pyval)) : res (list str) :=
  match items with
  | [] => Ok []
  | (k, v) :: rest =>
      match k with
      | VStr ks =>
          match v with
          | VNone =>
              match HStore_parts rest with
              | Ok parts =>
                  Ok ((quote (text_escape_nested ks) ++ u "=>" ++ SQL_NULL)
                        :: parts)
              | Raise e => Raise e
              end
          | VStr vs =>
              match HStore_parts rest with
              | Ok parts =>
                  Ok ((quote (text_escape_nested ks) ++ u "=>"
                         ++ quote (text_escape_nested vs)) :: parts)
              | Raise e => Raise e
              end
          | _ =>
              Raise (expected (u "type " ++ class_repr c_str
                                 ++ u " or None for values"))
          end
      | _ => Raise (expected (u "type " ++ class_repr c_str ++ u " for keys"))
      end
  end.

Definition HStore : encoder := fun v lazy =>
  match v with
  | VDict items =>
      match HStore_parts items with
      | Ok parts => Ok (VStr (join (u ",") parts), lazy)
      | Raise e => Raise e
      end
  | _ => Raise (expected (u "type " ++ class_repr c_dict))
  end.

Definition HStoreOrNone : encoder := fun v lazy =>
  match v with
  | VNone => Ok (VStr NULL, lazy)
  | VDict _ => HStore v lazy
  | _ => Raise (expected (u "type " ++ class_repr c_dict ++ u " or None"))
  end.

(** [range_factory(_type)]: the pair [(wrap, wrap_none)]. *)
Definition range_factory (_type : pyclass) : encoder * encoder :=
  let wrap : encoder := fun v lazy =>
    match v with
    | VRange lower upper _ =>
        if forallb (fun e => isinstance e _type) [lower; upper]
        then Ok (v, lazy)
        else Raise (expected (u "type " ++ class_repr _type))
    | _ => Raise (expected (u "type " ++ class_repr _type))
    end in
  let wrap_none : encoder := fun v lazy =>
    match v with
    | VNone => Ok (VStr NULL, lazy)
    | VRange lower upper _ =>
        if forallb (fun e => isinstance e _type) [lower; upper]
        then Ok (v, lazy)
        else Raise (expected (u "type " ++ class_repr _type ++ u " or None"))
    | _ => Raise (expected (u "type " ++ class_repr _type ++ u " or None"))
    end in
  (wrap, wrap_none).

(** ** The encoder registry and field resolution *)

(** A Django field as the module reads it: [str(field)], [attname],
    [column], [db_type(conn)], the names of the classes of
    [type(field).__mro__] (most derived first), [null], and [target_field]
    for a relation ([is_relation] is [true] exactly then). *)
Inductive field := mkField {
  label : str;
  attname : str;
  column : str;
  db_type : str;
  mro : list string;
  null : bool;
  target_field : option field }.

Definition is_relation (f : field) : bool :=
  match target_field f with Some _ => true | None => false end.

(** The global dict [ENCODERS], keyed by field class. *)
Definition registry : Type := list (string * (encoder * encoder)).

Fixpoint dict_get {V} (d : list (string * V)) (k : string) : option V :=
  match d with
  | [] => None
  | (k', v) :: d' => if String.eqb k' k then Some v else dict_get d' k
  end.

Fixpoint dict_set {V} (d : list (string * V)) (k : string) (v : V)
  : list (string * V) :=
  match d with
  | [] => [(k, v)]
  | (k', v') :: d' =>
      if String.eqb k' k then (k', v) :: d' else (k', v') :: dict_set d' k v
  end.

(** [register_fieldclass(field_cls, encoder, encoder_none=None)] *)
Definition register_fieldclass (ENCODERS : registry) (field_cls : string)
    (enc : encoder) (encoder_none : option encoder) : registry :=
  dict_set ENCODERS field_cls
    (enc, match encoder_none with Some e => e | None => enc end).

(** The [for cls in type(field).__mro__] loop of [get_encoder]. *)
Fixpoint get_encoder_mro (ENCODERS : registry) (classes : list string)
    (f_null : bool) (f_label : str) : res encoder :=
  match classes with
  | [] =>
      Raise (NotImplementedError
               (u "no suitable encoder found for field " ++ f_label))
  | cls :: classes' =>
      match dict_get ENCODERS cls with
      | Some enc => Ok (if f_null then snd enc else fst enc)
      | None => get_encoder_mro ENCODERS classes' f_null f_label
      end
  end.

Fixpoint get_encoder (ENCODERS : registry) (f : field) : res encoder :=
  match f with
  | mkField f_label _ _ _ f_mro f_null f_target =>
      match f_target with
      | Some target => get_encoder ENCODERS target
      | None => get_encoder_mro ENCODERS f_mro f_null f_label
      end
  end.

(** ** Codecs *)

(** [s.encode(encoding)] for one codec. *)
Definition codec : Type := str -> res bytes.

(** A codec that encodes code point by code point. *)
Fixpoint charmap_encode (table : char -> option bytes) (s : str) : res bytes :=
  match s with
  | [] => Ok []
  | c :: s' =>
      match table c with
      | None => Raise UnicodeEncodeError
      | Some b =>
          match charmap_encode table s' with
          | Ok bs => Ok (b ++ bs)
          | Raise e => Raise e
          end
      end
  end.

(** ['ascii'] and ['iso8859-1'] of [CONNECTION_ENCODINGS]. *)
Definition ascii_codec : codec :=
  charmap_encode (fun c => if c <? 128 then Some [byte_of_code c] else None).
Definition latin_1 : codec :=
  charmap_encode (fun c => if c <? 256 then Some [byte_of_code c] else None).

(** ['utf-8']: one to four bytes per code point, surrogates refused. *)
Definition utf_8_char (c : char) : option bytes :=
  if c <? 128 then Some [byte_of_code c]
  else if c <? 2048 then
    Some [byte_of_code (192 + c / 64); byte_of_code (128 + c mod 64)]
  else if (55296 <=? c) && (c <? 57344) then None
  else if c <? 65536 then
    Some [byte_of_code (224 + c / 4096);
          byte_of_code (128 + (c / 64) mod 64);
          byte_of_code (128 + c mod 64)]
  else if c <? 1114112 then
    Some [byte_of_code (240 + c / 262144);
          byte_of_code (128 + (c / 4096) mod 64);
          byte_of_code (128 + (c / 64) mod 64);
          byte_of_code (128 + c mod 64)]
  else None.
Definition utf_8 : codec := charmap_encode utf_8_char.

Definition CONNECTION_ENCODINGS : list (string * string) :=
  [("BIG5", "big5"); ("EUC_CN", "gb2312"); ("EUC_JP", "euc_jp");
   ("EUC_JIS_2004", "euc_jis_2004"); ("EUC_KR", "euc_kr");
   ("GB18030", "gb18030"); ("GBK", "gbk"); ("ISO_8859_5", "iso8859-5");
   ("ISO_8859_6", "iso8859-6"); ("ISO_8859_7", "iso8859-7");
   ("ISO_8859_8", "iso8859-8"); ("JOHAB", "johab"); ("KOI8R", "koi8-r");
   ("KOI8U", "koi8-u"); ("LATIN1", "iso8859-1"); ("LATIN2", "iso8859-2");
   ("LATIN3", "iso8859-3"); ("LATIN4", "iso8859-4"); ("LATIN5", "iso8859-9");
   ("LATIN6", "iso8859-10"); ("LATIN7", "iso8859-13");
   ("LATIN8", "iso8859-14"); ("LATIN9", "iso8859-15");
   ("LATIN10", "iso8859-16"); ("SJIS", "shift_jis");
   ("SHIFT_JIS_2004", "shift_jis_2004"); ("SQL_ASCII", "ascii");
   ("UHC", "cp949"); ("UTF8", "utf-8"); ("WIN866", "cp866");
   ("WIN874", "cp874"); ("WIN1250", "cp1250"); ("WIN1251", "cp1251");
   ("WIN1252", "cp1252"); ("WIN1253", "cp1253"); ("WIN1254", "cp1254");
   ("WIN1255", "cp1255"); ("WIN1256", "cp1256"); ("WIN1257", "cp1257");
   ("WIN1258", "cp1258")]%string.

(** ** I/O traces *)

(** What the producer does to the outside world, in program order. *)
Inductive event :=
| EPipe                                          (* os.pipe(), os.fdopen x2 *)
| EThreadStart (tname : str) (columns : list str)
    (* c.connection.cursor(); Thread(target=threaded_copy, ...).start() *)
| EPipeWrite (data : bytes)                      (* fw.write(data) *)
| ECloseWrite                                    (* fw.close() *)
| EJoin                                          (* t.join() *)
| ECloseRead                                     (* fr.close() *)
| ECopyFrom (content : bytes) (tname : str) (columns : list str)
    (* c.copy_from(f, tname, size=65536, columns=columns), f a BytesIO *)
| EAtomicEnter                                   (* with transaction.atomic *)
| EAtomicExit (committed : bool)
| EExecute (sql : str)                           (* c.execute(sql) *)
| EBulkUpdate (fieldnames : list str).           (* qs.bulk_update(objs, ..) *)

(** A computation with a trace: the events performed so far and either a
    value or the exception that stopped it. *)
Definition io (A : Type) : Type := list event * res A.

Definition ret {A} (a : A) : io A := ([], Ok a).
Definition bind {A B} (m : io A) (k : A -> io B) : io B :=
  match m with
  | (t, Ok a) => let (t', r) := k a in (t ++ t', r)
  | (t, Raise e) => (t, Raise e)
  end.
Definition emit (e : event) : io unit := ([e], Ok tt).
Definition lift {A} (r : res A) : io A := ([], r).

Declare Scope io_scope.
Delimit Scope io_scope with io.
Notation "x <- m ;; k" := (bind m (fun x => k))
  (at level 61, m at next level, right associativity) : io_scope.
Notation "m ;; k" := (bind m (fun _ => k))
  (at level 61, right associativity) : io_scope.
Notation "' pat <- m ;; k" := (bind m (fun x => match x with pat => k end))
  (at level 61, pat pattern, m at next level, right associativity) : io_scope.

(** ** The streaming writer *)

(** The [while length - pos > 65535] loop of [copy_from]: the chunks written
    to the pipe and the final [pos]. *)
Equations? write_chunks (m : bytes) (length_m pos : N) : list bytes * N
  by wf (N.to_nat (length_m - pos)) lt :=
  write_chunks m length_m pos with inspect (65535 <? length_m - pos) := {
    | exist _ true H =>
        let (ws, pos') := write_chunks m length_m (pos + 65536) in
        (slice m pos (pos + 65536) :: ws, pos')
    | exist _ false H => ([], pos) }.
Proof. apply N.ltb_lt in H. lia. Qed.

(** The loop variables of [copy_from]. *)
Record cf_state := mk_cf {
  use_thread : bool;
  payload : bytes;
  lazy : list lazy_entry }.

(** Writes made on the pipe's write end [fw]. *)
Definition pipe_writes (w : list bytes * res unit) : io unit :=
  (map EPipeWrite (fst w), snd w).

(** [create_columns(column_def)] *)
Definition create_columns (column_def : list (str * str)) : str :=
  replace (u "serial") (u "integer")
    (replace (u "smallserial") (u "smallint")
      (replace (u "bigserial") (u "bigint")
        (join (u ",") (map (fun kv => fst kv ++ u " " ++ snd kv) column_def)))).

Definition dq (s : str) : str := [DQUOTE] ++ s ++ [DQUOTE].

(** [update_sql(tname, temp_table, pkname, copy_fields)] *)
Definition update_sql (tname temp_table pkname : str) (copy_fields : list field)
  : str :=
  let cols :=
    join (u ",")
      (map (fun f => dq (column f) ++ u "=" ++ dq temp_table ++ u "."
                       ++ dq (column f)) copy_fields) in
  let where_ :=
    dq tname ++ u "." ++ dq pkname ++ u "=" ++ dq temp_table ++ u "."
      ++ dq pkname in
  u "UPDATE " ++ dq tname ++ u " SET " ++ cols ++ u " FROM " ++ dq temp_table
    ++ u " WHERE " ++ where_.

(** A sequence that is either a tuple or a list: [zip( *rows)] yields tuples,
    and a tuple refuses item assignment. *)
Inductive pyseq (A : Type) :=
| PyTuple (items : list A)
| PyList (items : list A).
Arguments PyTuple {A} items.
Arguments PyList {A} items.

Definition seq_items {A} (s : pyseq A) : list A :=
  match s with PyTuple l | PyList l => l end.

Fixpoint list_set {A} (l : list A) (i : nat) (x : A) : list A :=
  match l, i with
  | [], _ => []
  | _ :: l', O => x :: l'
  | y :: l', S i' => y :: list_set l' i' x
  end.

(** [s[i] = x] *)
Definition setitem {A} (s : pyseq A) (i : nat) (x : A) : res (pyseq A) :=
  match s with
  | PyTuple _ =>
      Raise (TypeError (u "'tuple' object does not support item assignment"))
  | PyList l =>
      if Nat.ltb i (List.length l) then Ok (PyList (list_set l i x))
      else Raise (ValueError (u "list assignment index out of range"))
  end.

Fixpoint str_eqb (a b : str) : bool :=
  match a, b with
  | [], [] => true
  | x :: a', y :: b' => (x =? y) && str_eqb a' b'
  | _, _ => false
  end.

(** [names.index(x)], for [x in names]. *)
Fixpoint index_str (names : list str) (x : str) : option nat :=
  match names with
  | [] => None
  | n :: names' =>
      if str_eqb n x then Some O else option_map S (index_str names' x)
  end.

(** The catalog and connection as [copy_update] uses them: [model._meta],
    the codec names Python knows, [c.connection.encoding], and the numbers
    the database reports ([c.rowcount] after the UPDATE, the return value of
    [qs.bulk_update]). *)
Record backend := {
  db_table : str;
  pk : field;
  local_fields : list field;
  get_field : str -> res field;
  connection_encoding : string;
  lookup_codec : string -> option codec;
  rowcount : Z;
  bulk_update_result : option Z }.

(** Fields compare by identity; within one model that is their label. *)
Definition field_in (f : field) (fs : list field) : bool :=
  existsb (fun g => str_eqb (label g) (label f)) fs.

Section Runtime.

(** [json.dumps] and the [str()] of bytes, memoryview and dict objects belong
    to the interpreter. *)
Variable dumps : pyval -> res str.
Variable py_repr : pyval -> str.

Definition Json : encoder := fun v lazy =>
  match dumps v with
  | Ok s => Ok (VStr (text_escape s), lazy)
  | Raise e => Raise e
  end.

Definition JsonOrNone : encoder := fun v lazy =>
  match v with
  | VNone => Ok (VStr NULL, lazy)
  | _ =>
      match dumps v with
      | Ok s => Ok (VStr (text_escape s), lazy)
      | Raise e => Raise e
      end
  end.

Definition ENCODERS : registry :=
  [("AutoField", (Int, IntOrNone));
   ("BigAutoField", (Int, IntOrNone));
   ("BigIntegerField", (Int, IntOrNone));
   ("BinaryField", (Binary, BinaryOrNone));
   ("BooleanField", (Boolean, BooleanOrNone));
   ("CharField", (Text, TextOrNone));
   ("DateField", (Date, DateOrNone));
   ("DateTimeField", (Datetime, DatetimeOrNone));
   ("DecimalField", (Numeric, NumericOrNone));
   ("DurationField", (Duration, DurationOrNone));
   ("EmailField", (Text, TextOrNone));
   ("FloatField", (Float, FloatOrNone));
   ("GenericIPAddressField", (Text, TextOrNone));
   ("IntegerField", (Int, IntOrNone));
   ("JSONField", (Json, JsonOrNone));
   ("PositiveBigIntegerField", (Int, IntOrNone));
   ("PositiveIntegerField", (Int, IntOrNone));
   ("PositiveSmallIntegerField", (Int, IntOrNone));
   ("SlugField", (Text, TextOrNone));
   ("SmallAutoField", (Int, IntOrNone));
   ("SmallIntegerField", (Int, IntOrNone));
   ("TextField", (Text, TextOrNone));
   ("TimeField", (Time, TimeOrNone));
   ("URLField", (Text, TextOrNone));
   ("UUIDField", (Uuid, UuidOrNone));
   ("HStoreField", (HStore, HStoreOrNone));
   ("IntegerRangeField", range_factory c_int);
   ("BigIntegerRangeField", range_factory c_int);
   ("DecimalRangeField", range_factory c_Decimal);
   ("DateTimeRangeField", range_factory c_datetime);
   ("DateRangeField", range_factory c_date)]%string.

(** [f'{r}'] for the value [r] an encoder returned. *)
Definition py_format (r : pyval) : str :=
  match r with
  | VStr s => s
  | VInt z => str_of_int z
  | VBool true => u "True"
  | VBool false => u "False"
  | VNone => u "None"
  | VFloat t | VDate t | VDatetime t | VTime t | VTimedelta t | VDecimal t
  | VUUID t | VRange _ _ t | VOther _ t => t
  | VBytes _ | VMemoryview _ | VDict _ => py_repr r
  end.

(** [[f'{enc(el, lazy)}' for enc, el in zip(encs, get(o))]], threading the
    shared [lazy] list through the calls. *)
Fixpoint encode_fields (pairs : list (encoder * pyval)) (lazy : list lazy_entry)
  : res (list str * list lazy_entry) :=
  match pairs with
  | [] => Ok ([], lazy)
  | (enc, el) :: pairs' =>
      match enc el lazy with
      | Raise e => Raise e
      | Ok (r, lazy1) =>
          match encode_fields pairs' lazy1 with
          | Raise e => Raise e
          | Ok (frags, lazy2) => Ok (py_format r :: frags, lazy2)
          end
      end
  end.

(** The two [payload += ...] lines of [copy_from]: the bytes one record adds
    to the buffer, and the lazy list afterwards. *)
Definition encode_record (encs : list encoder) (encoding : codec)
    (els : list pyval) (lazy : list lazy_entry)
  : res (bytes * list lazy_entry) :=
  match encode_fields (combine encs els) lazy with
  | Raise e => Raise e
  | Ok (frags, lazy') =>
      match encoding (join [9] frags) with
      | Raise e => Raise e
      | Ok line => Ok (line ++ [x0a], lazy')
      end
  end.

Section CopyFrom.

Context {O : Type}.
Variables (tname : str) (columns : list str) (get : O -> list pyval)
          (encs : list encoder) (encoding : codec).

(** One turn of the [for o in data] loop. *)
Definition copy_from_record (st : cf_state) (o : O) : io cf_state :=
  ('(row, lazy) <- lift (encode_record encs encoding (get o) (lazy st)) ;;
   let payload := payload st ++ row in
   if 65535 <? len payload then
     (if negb (use_thread st)
      then emit EPipe ;; emit (EThreadStart tname columns)
      else ret tt) ;;
     match lazy with
     | _ :: _ =>
         pipe_writes (write_lazy payload lazy) ;;
         ret (mk_cf true [] [])
     | [] =>
         let (ws, pos) := write_chunks payload (len payload) 0 in
         pipe_writes (ws, Ok tt) ;;
         ret (mk_cf true (slice_from payload pos) [])
     end
   else ret (mk_cf (use_thread st) payload lazy))%io.

Fixpoint copy_from_loop (data : list O) (st : cf_state) : io cf_state :=
  match data with
  | [] => ret st
  | o :: data' =>
      (st' <- copy_from_record st o ;; copy_from_loop data' st')%io
  end.

(** The code after the loop. *)
Definition copy_from_finish (st : cf_state) : io unit :=
  (if use_thread st then
     match payload st with
     | [] => ret tt
     | _ :: _ =>
         match lazy st with
         | _ :: _ => pipe_writes (write_lazy (payload st) (lazy st))
         | [] => emit (EPipeWrite (payload st))
         end
     end ;;
     emit ECloseWrite ;;
     emit EJoin ;;
     emit ECloseRead
   else
     match payload st with
     | [] => ret tt
     | _ :: _ =>
         content <-
           match lazy st with
           | _ :: _ =>
               let (ws, r) := write_lazy (payload st) (lazy st) in
               lift r ;; ret (concat ws)
           | [] => ret (payload st)
           end ;;
         emit (ECopyFrom content tname columns)
     end)%io.

Definition copy_from (data : list O) : io unit :=
  (st <- copy_from_loop data (mk_cf false [] []) ;; copy_from_finish st)%io.

End CopyFrom.

(** ** The bulk update orchestrator *)

(** The [for fieldname in fieldnames] loop:
    [(non_local_fieldnames, local_fieldnames)]. *)
Fixpoint split_fieldnames (B : backend) (fieldnames : list str)
  : res (list str * list str) :=
  match fieldnames with
  | [] => Ok ([], [])
  | fieldname :: rest =>
      match get_field B fieldname with
      | Raise e => Raise e
      | Ok f =>
          match split_fieldnames B rest with
          | Raise e => Raise e
          | Ok (non_local, local) =>
              if negb (field_in f (local_fields B))
              then Ok (fieldname :: non_local, local)
              else Ok (non_local, fieldname :: local)
          end
      end
  end.

(** A list comprehension whose body may raise. *)
Fixpoint map_res {A B} (f : A -> res B) (l : list A) : res (list B) :=
  match l with
  | [] => Ok []
  | x :: l' =>
      match f x with
      | Raise e => Raise e
      | Ok y =>
          match map_res f l' with
          | Raise e => Raise e
          | Ok ys => Ok (y :: ys)
          end
      end
  end.

(** The [for fname, encoder in field_encoders.items()] loop. *)
Fixpoint apply_field_encoders (attnames : pyseq str) (encs : pyseq encoder)
    (items : list (str * encoder)) : res (pyseq encoder) :=
  match items with
  | [] => Ok encs
  | (fname, enc) :: rest =>
      match index_str (seq_items attnames) fname with
      | Some i =>
          match setitem encs i enc with
          | Ok encs' => apply_field_encoders attnames encs' rest
          | Raise e => Raise e
          end
      | None => apply_field_encoders attnames encs rest
      end
  end.

(** [with transaction.atomic(...), conn.cursor() as c:] around [body]. *)
Definition atomic {A} (body : io A) : io A :=
  match body with
  | (t, Ok a) => (EAtomicEnter :: t ++ [EAtomicExit true], Ok a)
  | (t, Raise e) => (EAtomicEnter :: t ++ [EAtomicExit false], Raise e)
  end.

(** The codec an encoding name stands for; an unknown name fails in
    [str.encode]. *)
Definition codec_of (B : backend) (name : string) : codec :=
  match lookup_codec B name with
  | Some c => c
  | None => fun _ => Raise (LookupError (u "unknown encoding: " ++ u name))
  end.

(** [copy_update(qs, objs, fieldnames, field_encoders, encoding)]; an object
    is read through its attributes only. *)
Definition copy_update (ENC : registry) (B : backend)
    (objs : list (str -> pyval)) (fieldnames : list str)
    (field_encoders : option (list (str * encoder)))
    (encoding : option string) : io (option Z) :=
  ('(non_local_fieldnames, local_fieldnames) <-
      lift (split_fieldnames B fieldnames) ;;
   match local_fieldnames with
   | [] =>
       emit (EBulkUpdate non_local_fieldnames) ;;
       ret (bulk_update_result B)
   | _ :: _ =>
       let pk_field := pk B in
       fields <- lift (map_res (get_field B) local_fieldnames) ;;
       let all_fields := pk_field :: fields in
       resolved <- lift (map_res (get_encoder ENC) all_fields) ;;
       let attnames := PyTuple (map attname all_fields) in
       let colnames := PyTuple (map column all_fields) in
       let encs := PyTuple resolved in
       let column_def :=
         PyTuple (map (fun f => (column f, db_type f)) all_fields) in
       encs <-
         lift (match field_encoders with
               | Some ((_ :: _) as items) =>
                   apply_field_encoders attnames encs items
               | _ => Ok encs
               end) ;;
       let get := fun o : str -> pyval => map o (seq_items attnames) in
       atomic
         (let temp := u "temp_cu_" ++ db_table B in
          emit (EExecute (u "DROP TABLE IF EXISTS " ++ dq temp)) ;;
          emit (EExecute (u "CREATE TEMPORARY TABLE " ++ dq temp ++ u " ("
                            ++ create_columns (seq_items column_def)
                            ++ u ")")) ;;
          name <-
            lift (match encoding with
                  | Some (String _ _ as e) => Ok e
                  | _ =>
                      match dict_get CONNECTION_ENCODINGS
                              (connection_encoding B) with
                      | Some e => Ok e
                      | None => Raise (KeyError (u (connection_encoding B)))
                      end
                  end) ;;
          copy_from temp (seq_items colnames) get (seq_items encs)
            (codec_of B name) objs ;;
          emit (EExecute (u "ANALYZE " ++ dq temp ++ u " ("
                            ++ column pk_field ++ u ")")) ;;
          emit (EExecute (update_sql (db_table B) temp (column pk_field)
                            fields)) ;;
          let rows_updated := rowcount B in
          emit (EExecute (u "DROP TABLE " ++ dq temp)) ;;
          match non_local_fieldnames with
          | [] => ret (Some rows_updated)
          | _ :: _ =>
              emit (EBulkUpdate non_local_fieldnames) ;;
              ret (Some (Z.max rows_updated
                           (match bulk_update_result B with
                            | Some r => r
                            | None => 0%Z
                            end)))
          end)
   end)%io.

(** ** Reference definitions used to state the properties *)

(** What [text_escape] does to one character. *)
Definition escape_char (c : char) : str :=
  if c =? 92 then [92; 92]
  else if c =? 8 then [92; 98]
  else if c =? 12 then [92; 102]
  else if c =? 10 then [92; 110]
  else if c =? 13 then [92; 114]
  else if c =? 9 then [92; 116]
  else if c =? 11 then [92; 118]
  else [c].

(** The six control characters of the escaping grammar. *)
Definition is_control (c : char) : bool :=
  (c =? 8) || (c =? 12) || (c =? 10) || (c =? 13) || (c =? 9) || (c =? 11).

(** The character a backslash escape of the grammar stands for. *)
Definition unescape_letter (e : char) : option char :=
  if e =? 92 then Some 92
  else if e =? 98 then Some 8
  else if e =? 102 then Some 12
  else if e =? 110 then Some 10
  else if e =? 114 then Some 13
  else if e =? 116 then Some 9
  else if e =? 118 then Some 11
  else None.

(** The inverse of the grammar: a backslash must start one of the seven
    two-character escapes, and a raw control character is refused. *)
Fixpoint text_unescape (s : str) : option str :=
  match s with
  | [] => Some []
  | c :: rest =>
      if c =? 92 then
        match rest with
        | [] => None
        | e :: rest' =>
            match unescape_letter e, text_unescape rest' with
            | Some x, Some r => Some (x :: r)
            | _, _ => None
            end
        end
      else if is_control c then None
      else option_map (cons c) (text_unescape rest)
  end.

(** No raw occurrence of the seven characters: every backslash belongs to an
    escape pair and no control character is present. *)
Fixpoint raw_free (s : str) : bool :=
  match s with
  | [] => true
  | c :: rest =>
      if c =? 92 then
        match rest with
        | [] => false
        | e :: rest' =>
            match unescape_letter e with
            | Some _ => raw_free rest'
            | None => false
            end
        end
      else negb (is_control c) && raw_free rest
  end.

(** A dict with [str] keys and [str] or [None] values. *)
Definition hstore_items (kvs : list (str * option str)) : list (pyval * pyval) :=
  map (fun kv => (VStr (fst kv),
                  match snd kv with Some s => VStr s | None => VNone end)) kvs.

(** The rendering of one conforming pair. *)
Definition hstore_pair (kv : str * option str) : str :=
  quote (text_escape_nested (fst kv)) ++ u "=>"
    ++ match snd kv with
       | Some s => quote (text_escape_nested s)
       | None => u "NULL"
       end.

Definition hstore_conforming (items : list (pyval * pyval)) : bool :=
  forallb (fun kv =>
             match fst kv, snd kv with
             | VStr _, VStr _ | VStr _, VNone => true
             | _, _ => false
             end) items.

(** The bytes before and after the first placeholder byte. *)
Fixpoint split_placeholder (data : bytes) : option (bytes * bytes) :=
  match data with
  | [] => None
  | x :: data' =>
      if Byte.eqb x LAZY_PLACEHOLDER_BYTE then Some ([], data')
      else
        match split_placeholder data' with
        | Some (pre, post) => Some (x :: pre, post)
        | None => None
        end
  end.

(** The substitution [write_lazy] is meant to perform: the k-th placeholder
    byte of [data] gives way to what the k-th entry of [stack] writes, every
    other byte stays. *)
Fixpoint resolve (data : bytes) (stack : list lazy_entry) : bytes :=
  match stack with
  | [] => data
  | (writer, byte_object) :: stack' =>
      match split_placeholder data with
      | Some (pre, post) =>
          pre ++ concat (writer byte_object) ++ resolve post stack'
      | None => data
      end
  end.

(** Number of placeholder bytes in a buffer. *)
Definition placeholders (data : bytes) : nat :=
  count_occ Byte.byte_eq_dec data LAZY_PLACEHOLDER_BYTE.

(** The bytes a trace hands to the bulk-load sink, in order. *)
Fixpoint delivered (tr : list event) : bytes :=
  match tr with
  | [] => []
  | EPipeWrite data :: tr' => data ++ delivered tr'
  | ECopyFrom content _ _ :: tr' => content ++ delivered tr'
  | _ :: tr' => delivered tr'
  end.

Definition is_teardown (e : event) : bool :=
  match e with
  | ECloseWrite | EJoin | ECloseRead => true
  | _ => false
  end.

Definition is_spawn (e : event) : bool :=
  match e with
  | EPipe | EThreadStart _ _ => true
  | _ => false
  end.

Definition is_memory_copy (e : event) : bool :=
  match e with
  | ECopyFrom _ _ _ => true
  | _ => false
  end.

(** Record [o] adds the bytes [fst rn] to the buffer and the entries [snd rn]
    to the lazy list, whatever the list held before. *)
Definition encodes_to {O} (get : O -> list pyval) (encs : list encoder)
    (encoding : codec) (o : O) (rn : bytes * list lazy_entry) : Prop :=
  forall lazy,
    encode_record encs encoding (get o) lazy = Ok (fst rn, lazy ++ snd rn).

(** Every deferred entry of the record has a placeholder byte. *)
Definition covered (rn : bytes * list lazy_entry) : Prop :=
  (List.length (snd rn) <= placeholders (fst rn))%nat.

(** The placeholder byte occurs in the record's bytes only as the
    placeholder of one of its deferred entries. *)
Definition aligned (rn : bytes * list lazy_entry) : Prop :=
  placeholders (fst rn) = List.length (snd rn).

(** A trace of the record loop that starts with [use_thread = b] and ends
    with [use_thread = b']: the pipe and the helper thread are created when
    the flag turns, and everything else is a write to the pipe. *)
Definition loop_shape (tname : str) (columns : list str)
    (b : bool) (tr : list event) (b' : bool) : Prop :=
  exists chunks,
    tr = (if negb b && b' then [EPipe; EThreadStart tname columns] else [])
           ++ map EPipeWrite chunks /\
    (b = true -> b' = true) /\
    (b' = false -> chunks = []).

(** What is still to be handed to the sink: the buffer with its pending
    entries substituted. *)
Definition pending (st : cf_state) : bytes :=
  resolve (payload st) (lazy st).

(** The writes [write_lazy] is meant to make on a buffer
    [seg1 ++ [0] ++ seg2 ++ [0] ++ ... ++ last]: each segment, then what the
    entry of the placeholder behind it writes, and at the end [last]. *)
Fixpoint expected_writes (segs : list bytes) (stack : list lazy_entry)
    (last : bytes) : list bytes :=
  match segs, stack with
  | seg :: segs', (writer, byte_object) :: stack' =>
      seg :: writer byte_object ++ expected_writes segs' stack' last
  | _, _ => [last]
  end.

(** The immediate path of [Binary] taken whatever the length:
    ['\\\\x' + v.hex()]. *)
Definition Binary_inline : encoder := fun v lazy =>
  match v with
  | VMemoryview b | VBytes b => Ok (VStr (HEX_PREFIX ++ bytes_hex b), lazy)
  | _ =>
      Raise (expected (u "types " ++ class_repr c_memoryview ++ u " or "
                         ++ class_repr c_bytes))
  end.

Definition BinaryOrNone_inline : encoder := fun v lazy =>
  match v with
  | VNone => Ok (VStr NULL, lazy)
  | VMemoryview b | VBytes b => Ok (VStr (HEX_PREFIX ++ bytes_hex b), lazy)
  | _ =>
      Raise (expected (u "types " ++ class_repr c_memoryview ++ u ", "
                         ++ class_repr c_bytes ++ u " or None"))
  end.

(** A column of a table with binary fields: a [BinaryField] (nullable or
    not) or a field with some other encoder. *)
Inductive table_column :=
| BinaryColumn (nullable : bool)
| OtherColumn (enc : encoder).

Definition column_encoder (c : table_column) : encoder :=
  match c with
  | BinaryColumn false => Binary
  | BinaryColumn true => BinaryOrNone
  | OtherColumn enc => enc
  end.

Definition column_inline (c : table_column) : encoder :=
  match c with
  | BinaryColumn false => Binary_inline
  | BinaryColumn true => BinaryOrNone_inline
  | OtherColumn enc => enc
  end.

(** What the codecs of [CONNECTION_ENCODINGS] share: the empty string gives
    no bytes, and an ASCII character gives its own byte between the bytes of
    what stands before and after it. *)
Record ascii_compatible (encoding : codec) : Prop := {
  encode_nil : encoding [] = Ok [];
  encode_ascii : forall a c b x y,
    c < 128 -> encoding a = Ok x -> encoding b = Ok y ->
    encoding (a ++ c :: b) = Ok (x ++ byte_of_code c :: y) }.

(** A value a column accepts: binary data (or [None] when nullable) for a
    binary column; for another column a value its encoder turns, without
    touching the lazy list, into text whose bytes hold no byte 0. *)
Definition cell_ok (encoding : codec) (c : table_column) (v : pyval) : Prop :=
  match c with
  | BinaryColumn nullable =>
      (exists b, v = VBytes b \/ v = VMemoryview b) \/
      (nullable = true /\ v = VNone)
  | OtherColumn enc =>
      exists r bs,
        (forall lazy, enc v lazy = Ok (r, lazy)) /\
        encoding (py_format r) = Ok bs /\
        placeholders bs = 0%nat
  end.

(** What one cell contributes on the deferred and on the immediate path. *)
Record cell := {
  lazy_text : str;
  lazy_bytes : bytes;
  entries : list lazy_entry;
  inline_text : str;
  inline_bytes : bytes }.

(** [x] is what the value [v] of column [c] contributes: the text and the
    bytes on both paths, the entries deferred, and the substitution of the
    entries into the deferred bytes gives the immediate bytes. *)
Definition cell_of (encoding : codec) (c : table_column) (v : pyval)
    (x : cell) : Prop :=
  (forall lazy, exists r,
      column_encoder c v lazy = Ok (r, lazy ++ entries x) /\
      py_format r = lazy_text x) /\
  (forall lazy, exists r,
      column_inline c v lazy = Ok (r, lazy) /\
      py_format r = inline_text x) /\
  encoding (lazy_text x) = Ok (lazy_bytes x) /\
  encoding (inline_text x) = Ok (inline_bytes x) /\
  placeholders (lazy_bytes x) = List.length (entries x) /\
  resolve (lazy_bytes x) (entries x) = inline_bytes x /\
  placeholders (inline_bytes x) = 0%nat.

(** The cell of a binary value, deferred or not by its length. *)
Definition binary_cell (b : bytes) : cell :=
  if 4096 <? len b then
    {| lazy_text := HEX_PREFIX ++ LAZY_PLACEHOLDER;
       lazy_bytes := map byte_of_code (HEX_PREFIX ++ LAZY_PLACEHOLDER);
       entries := [(_lazy_binary, b)];
       inline_text := HEX_PREFIX ++ bytes_hex b;
       inline_bytes := map byte_of_code (HEX_PREFIX ++ bytes_hex b) |}
  else
    {| lazy_text := HEX_PREFIX ++ bytes_hex b;
       lazy_bytes := map byte_of_code (HEX_PREFIX ++ bytes_hex b);
       entries := [];
       inline_text := HEX_PREFIX ++ bytes_hex b;
       inline_bytes := map byte_of_code (HEX_PREFIX ++ bytes_hex b) |}.

(** The bytes of a joined line: the cells with a tab byte between them. *)
Definition line_bytes (cells : list bytes) : bytes :=
  match cells with
  | [] => []
  | b :: bs => b ++ flat_map (fun g => x09 :: g) bs
  end.

End Runtime.

(** ** Concrete tables and records *)

Module Examples.

(** The [str()] of containers is not needed by the runs below. *)
Definition container_repr (v : pyval) : str := u "<object>".

(** [json.dumps] is not called by the runs below. *)
Definition no_dumps (v : pyval) : res str :=
  Raise (TypeError (u "Object is not JSON serializable")).

Definition tname : str := u "temp_cu_app_item".

(** A record is the tuple of its attribute values. *)
Definition get (o : list pyval) : list pyval := o.

(** ['a' * 65536] *)
Definition long_text : str := repeat 97 (N.to_nat 65536).
Definition long_line : bytes := repeat x61 (N.to_nat 65536).

(** [b'A' * 4097] *)
Definition big_bytes : bytes := repeat x41 (N.to_nat 4097).

Definition run_text (data : list (list pyval)) : io unit :=
  copy_from container_repr tname [u "name"] get [Text] latin_1 data.

(** A model [Author] with an [AutoField] key and a [CharField], and a
    nullable [ForeignKey] of another model to it. *)
Definition author_id : field :=
  {| label := u "app.Author.id"; attname := u "id"; column := u "id";
     db_type := u "serial";
     mro := ["AutoField"; "AutoFieldMixin"; "IntegerField"; "Field";
             "RegisterLookupMixin"; "object"]%string;
     null := false; target_field := None |}.

Definition author_name : field :=
  {| label := u "app.Author.name"; attname := u "name"; column := u "name";
     db_type := u "varchar(100)";
     mro := ["CharField"; "Field"; "RegisterLookupMixin"; "object"]%string;
     null := false; target_field := None |}.

Definition book_author : field :=
  {| label := u "app.Book.author"; attname := u "author_id";
     column := u "author_id"; db_type := u "integer";
     mro := ["ForeignKey"; "ForeignObject"; "RelatedField";
             "FieldCacheMixin"; "Field"; "RegisterLookupMixin";
             "object"]%string;
     null := true; target_field := Some author_id |}.

Definition authors : backend :=
  {| db_table := u "app_author";
     pk := author_id;
     local_fields := [author_id; author_name];
     get_field := fun name =>
       if str_eqb name (u "id") then Ok author_id
       else if str_eqb name (u "name") then Ok author_name
       else Raise (FieldDoesNotExist name);
     connection_encoding := "UTF8";
     lookup_codec := fun name =>
       if String.eqb name "utf-8" then Some utf_8
       else if String.eqb name "iso8859-1" then Some latin_1
       else if String.eqb name "ascii" then Some ascii_codec
       else None;
     rowcount := 1;
     bulk_update_result := Some 1%Z |}.

(** An [Author] instance with [id = 1], [name = 'Ann']. *)
Definition ann (attr : str) : pyval :=
  if str_eqb attr (u "id") then VInt 1
  else if str_eqb attr (u "name") then VStr (u "Ann")
  else VNone.

(** A model [Restaurant] that inherits from [Place]: [name] belongs to the
    parent and is no local field of the child. *)
Definition place_name : field :=
  {| label := u "app.Place.name"; attname := u "name"; column := u "name";
     db_type := u "varchar(50)";
     mro := ["CharField"; "Field"; "RegisterLookupMixin"; "object"]%string;
     null := false; target_field := None |}.

Definition place_id : field :=
  {| label := u "app.Place.id"; attname := u "id"; column := u "id";
     db_type := u "serial";
     mro := ["AutoField"; "AutoFieldMixin"; "IntegerField"; "Field";
             "RegisterLookupMixin"; "object"]%string;
     null := false; target_field := None |}.

Definition place_ptr : field :=
  {| label := u "app.Restaurant.place_ptr"; attname := u "place_ptr_id";
     column := u "place_ptr_id"; db_type := u "integer";
     mro := ["OneToOneField"; "ForeignKey"; "ForeignObject"; "RelatedField";
             "FieldCacheMixin"; "Field"; "RegisterLookupMixin";
             "object"]%string;
     null := false; target_field := Some place_id |}.

Definition serves_pizza : field :=
  {| label := u "app.Restaurant.serves_pizza"; attname := u "serves_pizza";
     column := u "serves_pizza"; db_type := u "boolean";
     mro := ["BooleanField"; "Field"; "RegisterLookupMixin";
             "object"]%string;
     null := false; target_field := None |}.

Definition restaurants : backend :=
  {| db_table := u "app_restaurant";
     pk := place_ptr;
     local_fields := [place_ptr; serves_pizza];
     get_field := fun name =>
       if str_eqb name (u "name") then Ok place_name
       else if str_eqb name (u "serves_pizza") then Ok serves_pizza
       else if str_eqb name (u "place_ptr") then Ok place_ptr
       else Raise (FieldDoesNotExist name);
     connection_encoding := "UTF8";
     lookup_codec := fun name =>
       if String.eqb name "utf-8" then Some utf_8 else None;
     rowcount := 1;
     bulk_update_result := Some 1%Z |}.

(** The [authors] catalog on a connection whose [client_encoding] is
    [name]. *)
Definition on_connection (name : string) : backend :=
  {| db_table := db_table authors;
     pk := pk authors;
     local_fields := local_fields authors;
     get_field := get_field authors;
     connection_encoding := name;
     lookup_codec := lookup_codec authors;
     rowcount := rowcount authors;
     bulk_update_result := bulk_update_result authors |}.

End Examples.

(** ** Reference definitions for the further properties *)

(** The strict and nullable encoders that come in pairs, all but the JSON
    pair: those of [ENCODERS] and the four range pairs. *)
Definition scalar_pairs : list (encoder * encoder) :=
  [(Int, IntOrNone); (Binary, BinaryOrNone); (Boolean, BooleanOrNone);
   (Date, DateOrNone); (Datetime, DatetimeOrNone); (Numeric, NumericOrNone);
   (Duration, DurationOrNone); (Float, FloatOrNone); (Text, TextOrNone);
   (Time, TimeOrNone); (Uuid, UuidOrNone); (HStore, HStoreOrNone);
   range_factory c_int; range_factory c_Decimal; range_factory c_datetime;
   range_factory c_date].

(** A [json.dumps] that knows [None] only. *)
Definition dumps_null (v : pyval) : res str :=
  match v with
  | VNone => Ok (u "null")
  | _ => Raise (TypeError (u "Object is not JSON serializable"))
  end.

(** What [text_escape_nested] does to one character. *)
Definition nested_escape_char (c : char) : str :=
  if c =? 92 then [92; 92; 92; 92]
  else if c =? 8 then [92; 98]
  else if c =? 12 then [92; 102]
  else if c =? 10 then [92; 110]
  else if c =? 13 then [92; 114]
  else if c =? 9 then [92; 116]
  else if c =? 11 then [92; 118]
  else [c].

(** What [quote(text_escape_nested(.))] does to one character between the
    two quotes it adds. *)
Definition nested_char (c : char) : str :=
  if c =? 34 then [92; 92; 34] else nested_escape_char c.

(** Reading back the text between the quotes: four backslashes are a
    backslash, two backslashes and a quote are a quote, a backslash and a
    letter is a control character, and the first bare quote must end the
    text. *)
Fixpoint nested_body (s : str) : option str :=
  match s with
  | [] => None
  | c :: rest =>
      if c =? 34 then
        match rest with
        | [] => Some []
        | _ :: _ => None
        end
      else if c =? 92 then
        match rest with
        | [] => None
        | e :: rest1 =>
            if e =? 92 then
              match rest1 with
              | [] => None
              | q :: rest2 =>
                  if q =? 34 then option_map (cons 34) (nested_body rest2)
                  else if q =? 92 then
                    match rest2 with
                    | [] => None
                    | q' :: rest3 =>
                        if q' =? 92
                        then option_map (cons 92) (nested_body rest3)
                        else None
                    end
                  else None
              end
            else
              match unescape_letter e, nested_body rest1 with
              | Some x, Some r => Some (x :: r)
              | _, _ => None
              end
        end
      else if is_control c then None
      else option_map (cons c) (nested_body rest)
  end.

Definition nested_unquote (s : str) : option str :=
  match s with
  | [] => None
  | c :: body => if c =? 34 then nested_body body else None
  end.

(** The value of a lower-case hex digit. *)
Definition hex_value (c : char) : option N :=
  if (48 <=? c) && (c <=? 57) then Some (c - 48)
  else if (97 <=? c) && (c <=? 102) then Some (c - 87)
  else None.

(** Reading hex text back, two digits a byte. *)
Fixpoint unhex (s : str) : option bytes :=
  match s with
  | [] => Some []
  | [_] => None
  | h :: l :: rest =>
      match hex_value h, hex_value l with
      | Some a, Some b =>
          match Byte.of_N (16 * a + b), unhex rest with
          | Some x, Some r => Some (x :: r)
          | _, _ => None
          end
      | _, _ => None
      end
  end.

(** The field a chain of relations ends in: [get_encoder] follows
    [target_field] while the field is a relation. *)
Fixpoint final_target (f : field) : field :=
  match f with
  | mkField _ _ _ _ _ _ (Some target) => final_target target
  | mkField _ _ _ _ _ _ None => f
  end.

(** [old in s] for a non-empty [old]. *)
Fixpoint occurs (old s : str) : bool :=
  match s with
  | [] => starts_with old []
  | _ :: s' => starts_with old s || occurs old s'
  end.

(** The statements sent with [c.execute], and the transaction marks. *)
Definition is_execute (e : event) : bool :=
  match e with EExecute _ => true | _ => false end.

Definition is_bulk_update (e : event) : bool :=
  match e with EBulkUpdate _ => true | _ => false end.

Section Properties.

Variable py_repr : pyval -> str.

Local Abbreviation py_format := (py_format py_repr).
Local Abbreviation encode_fields := (encode_fields py_repr).
Local Abbreviation encode_record := (encode_record py_repr).
Local Abbreviation copy_from_record := (copy_from_record py_repr).
Local Abbreviation copy_from_loop := (copy_from_loop py_repr).
Local Abbreviation copy_from := (copy_from py_repr).
Local Abbreviation copy_update := (copy_update py_repr).
Local Abbreviation encodes_to := (encodes_to py_repr).
Local Abbreviation cell_ok := (cell_ok py_repr).
Local Abbreviation cell_of := (cell_of py_repr).

(** ** Properties of the escaping primitives *)

Lemma replace_single c new s :
  replace [c] new s = flat_map (fun x => if x =? c then new else [x]) s.
Proof.
  unfold replace. induction s as [|a s IH]; simpl; [reflexivity|].
  rewrite N.eqb_sym, andb_true_r.
  destruct (a =? c); simpl; now rewrite IH.
Qed.

Lemma flat_map_compose {A B C} (f : A -> list B) (g : B -> list C) l :
  flat_map g (flat_map f l) = flat_map (fun x => flat_map g (f x)) l.
Proof.
  induction l as [|a l IH]; simpl; [reflexivity|].
  now rewrite flat_map_app, IH.
Qed.

Ltac case_char c :=
  repeat match goal with
         | |- context [c =? ?k] =>
             destruct (N.eqb_spec c k); subst; simpl; try congruence
         end.

Lemma text_escape_flat_map s : text_escape s = flat_map escape_char s.
Proof.
  unfold text_escape. rewrite !replace_single, !flat_map_compose.
  apply flat_map_ext. intros c. unfold escape_char, BACKSLASH.
  case_char c; try reflexivity; try lia.
Qed.

Ltac rewrite_neqs :=
  repeat match goal with
         | H : ?a <> ?b |- _ => apply N.eqb_neq in H; rewrite ?H; clear H
         end.

Lemma text_unescape_step c rest :
  text_unescape (escape_char c ++ rest)
  = option_map (cons c) (text_unescape rest).
Proof.
  unfold escape_char. case_char c;
    try (destruct (text_unescape rest); reflexivity).
  unfold is_control. rewrite_neqs. reflexivity.
Qed.

Lemma text_unescape_escape s : text_unescape (flat_map escape_char s) = Some s.
Proof.
  induction s as [|c s IH]; simpl; [reflexivity|].
  now rewrite text_unescape_step, IH.
Qed.

Lemma raw_free_step c rest :
  raw_free (escape_char c ++ rest) = raw_free rest.
Proof.
  unfold escape_char. case_char c; try reflexivity.
  unfold is_control. rewrite_neqs. reflexivity.
Qed.

Lemma raw_free_escape s : raw_free (flat_map escape_char s) = true.
Proof.
  induction s as [|c s IH]; simpl; [reflexivity|].
  now rewrite raw_free_step.
Qed.

Lemma escape_no_control s c :
  is_control c = true -> ~ In c (flat_map escape_char s).
Proof.
  intros Hc Hin. apply in_flat_map in Hin as (x & _ & Hx).
  unfold escape_char in Hx. unfold is_control in Hc.
  revert Hx. case_char x; simpl; intros Hx;
    repeat (destruct Hx as [Hx|Hx]; [subst c; try discriminate|]);
    try contradiction.
  repeat match goal with
         | H : x <> _ |- _ => apply N.eqb_neq in H; rewrite H in Hc; clear H
         end.
  discriminate.
Qed.

(** C7. [text_escape] acts character by character (the backslash is doubled
    before the control characters are rewritten, so no escape is escaped
    again); its result has no raw backslash, backspace, form feed, newline,
    carriage return, tab or vertical tab; and un-escaping it gives back the
    input. *)
Theorem text_escape_roundtrip (s : str) :
  text_escape s = flat_map escape_char s /\
  raw_free (text_escape s) = true /\
  (forall c, is_control c = true -> ~ In c (text_escape s)) /\
  text_unescape (text_escape s) = Some s.
Proof.
  rewrite text_escape_flat_map. repeat split.
  - apply raw_free_escape.
  - intros c Hc. now apply escape_no_control.
  - apply text_unescape_escape.
Qed.

(** ** Properties of the scalar encoders *)

(** C10. [bool] is a subclass of [int]: [Int], [IntOrNone], [Float] and
    [FloatOrNone] pass [True] and [False] along unchanged, while [Boolean]
    raises a [TypeError] on every plain int. *)
Theorem bool_passes_int_encoders (b : bool) (z : Z) (lazy : list lazy_entry) :
  Int (VBool b) lazy = Ok (VBool b, lazy) /\
  IntOrNone (VBool b) lazy = Ok (VBool b, lazy) /\
  Float (VBool b) lazy = Ok (VBool b, lazy) /\
  FloatOrNone (VBool b) lazy = Ok (VBool b, lazy) /\
  is_TypeError (Boolean (VInt z) lazy).
Proof.
  repeat split; try reflexivity.
  unfold Boolean, pass_along, is_TypeError. simpl. eexists. reflexivity.
Qed.

(** ** Properties of the HStore encoder *)

Lemma HStore_parts_conforming kvs :
  HStore_parts (hstore_items kvs) = Ok (map hstore_pair kvs).
Proof.
  induction kvs as [|[k [v|]] kvs IH]; simpl; [reflexivity| |];
    rewrite IH; reflexivity.
Qed.

Lemma HStore_parts_nonconforming items :
  hstore_conforming items = false -> is_TypeError (HStore_parts items).
Proof.
  induction items as [|[k v] items IH]; simpl; [discriminate|].
  intros H.
  destruct k; try (eexists; reflexivity).
  destruct v; try (eexists; reflexivity); simpl in H;
    destruct (IH H) as [msg ->]; eexists; reflexivity.
Qed.


(** ** [create_columns] *)

(** C9 fails on the code: the three replacements run over the joined text,
    column names included, so a column named [serial_no] of type [integer]
    comes out as [integer_no integer]. *)
Theorem create_columns_rewrites_column_name :
  create_columns [(u "serial_no", u "integer")] = u "integer_no integer" /\
  create_columns [(u "id", u "bigserial"); (u "n", u "smallserial");
                  (u "m", u "serial")]
  = u "id bigint,n smallint,m integer".
Proof. split; reflexivity. Qed.

(** ** Slices, search and the lazy substitution *)

Lemma len_nil {A} : len (@nil A) = 0.
Proof. reflexivity. Qed.

Lemma len_cons {A} (x : A) l : len (x :: l) = N.succ (len l).
Proof. unfold len. simpl. lia. Qed.

Lemma len_app {A} (l1 l2 : list A) : len (l1 ++ l2) = len l1 + len l2.
Proof. unfold len. rewrite length_app. lia. Qed.

Lemma byte_eqb_refl x : Byte.eqb x x = true.
Proof. now apply Byte.byte_dec_lb. Qed.

Lemma split_placeholder_some data pre post :
  split_placeholder data = Some (pre, post) ->
  data = pre ++ LAZY_PLACEHOLDER_BYTE :: post /\
  ~ In LAZY_PLACEHOLDER_BYTE pre /\
  index_of LAZY_PLACEHOLDER_BYTE data = Some (len pre).
Proof.
  revert pre post. induction data as [|x data IH]; simpl; [discriminate|].
  intros pre post. destruct (Byte.eqb x LAZY_PLACEHOLDER_BYTE) eqn:E.
  - intros [= <- <-]. apply Byte.byte_dec_bl in E. subst x.
    repeat split; auto.
  - destruct (split_placeholder data) as [[pre' post']|]; [|discriminate].
    intros [= <- <-]. destruct (IH _ _ eq_refl) as (-> & Hn & ->).
    repeat split.
    + intros [->|H]; [|auto].
      rewrite byte_eqb_refl in E. discriminate.
    + simpl. rewrite len_cons. reflexivity.
Qed.

Lemma split_placeholder_none data :
  split_placeholder data = None ->
  placeholders data = 0%nat /\ index_of LAZY_PLACEHOLDER_BYTE data = None.
Proof.
  unfold placeholders.
  induction data as [|x data IH]; simpl; [auto|].
  destruct (Byte.eqb x LAZY_PLACEHOLDER_BYTE) eqn:E; [discriminate|].
  destruct (split_placeholder data) as [[pre post]|]; [discriminate|].
  intros _. destruct (IH eq_refl) as [H1 H2]. rewrite H2. split; [|reflexivity].
  destruct (Byte.byte_eq_dec x LAZY_PLACEHOLDER_BYTE) as [->|_]; [|exact H1].
  rewrite byte_eqb_refl in E. discriminate.
Qed.

Lemma placeholders_app a b :
  placeholders (a ++ b) = (placeholders a + placeholders b)%nat.
Proof. apply count_occ_app. Qed.

Lemma placeholders_notin pre :
  ~ In LAZY_PLACEHOLDER_BYTE pre -> placeholders pre = 0%nat.
Proof. apply count_occ_not_In. Qed.

Lemma placeholders_split data pre post :
  split_placeholder data = Some (pre, post) ->
  placeholders data = S (placeholders post).
Proof.
  intros H. destruct (split_placeholder_some _ _ _ H) as (-> & Hn & _).
  rewrite placeholders_app, (placeholders_notin _ Hn). simpl.
  unfold placeholders. simpl.
  destruct (Byte.byte_eq_dec LAZY_PLACEHOLDER_BYTE LAZY_PLACEHOLDER_BYTE);
    congruence.
Qed.

Lemma split_placeholder_app pre rest :
  placeholders pre = 0%nat ->
  split_placeholder (pre ++ rest)
  = match split_placeholder rest with
    | Some (p, q) => Some (pre ++ p, q)
    | None => None
    end.
Proof.
  unfold placeholders.
  induction pre as [|x pre IH]; simpl; intros H.
  - destruct (split_placeholder rest) as [[p q]|]; reflexivity.
  - destruct (Byte.byte_eq_dec x LAZY_PLACEHOLDER_BYTE) as [->|Hx];
      [discriminate|].
    destruct (Byte.eqb x LAZY_PLACEHOLDER_BYTE) eqn:E.
    + apply Byte.byte_dec_bl in E. contradiction.
    + rewrite (IH H).
      destruct (split_placeholder rest) as [[p q]|]; reflexivity.
Qed.

Lemma resolve_app data stack data' stack' :
  placeholders data = List.length stack ->
  resolve (data ++ data') (stack ++ stack')
  = resolve data stack ++ resolve data' stack'.
Proof.
  revert data. induction stack as [|[w b] stack IH]; intros data H.
  - simpl in *. destruct stack' as [|[w' b'] stack']; simpl; [reflexivity|].
    rewrite (split_placeholder_app _ _ H).
    destruct (split_placeholder data') as [[p q]|]; [|reflexivity].
    now rewrite <- app_assoc.
  - simpl in *. destruct (split_placeholder data) as [[pre post]|] eqn:E.
    + pose proof (split_placeholder_some _ _ _ E) as (-> & Hn & _).
      rewrite (placeholders_split _ _ _ E) in H.
      rewrite <- app_assoc. simpl.
      rewrite (split_placeholder_app _ _ (placeholders_notin _ Hn)). simpl.
      rewrite ?byte_eqb_refl. rewrite IH by congruence.
      now rewrite <- !app_assoc.
    + apply split_placeholder_none in E. destruct E as [E _]. congruence.
Qed.

Lemma resolve_nil_stack data : resolve data [] = data.
Proof. reflexivity. Qed.

Lemma slice_from_app_len {A} (pre post : list A) (i : N) :
  i = len pre -> slice_from (pre ++ post) i = post.
Proof.
  intros ->. unfold slice_from, len. rewrite Nnat.Nat2N.id.
  rewrite skipn_app, skipn_all, Nat.sub_diag. reflexivity.
Qed.

Lemma slice_from_add {A} (data : list A) (i j : N) :
  slice_from data (i + j) = slice_from (slice_from data i) j.
Proof.
  unfold slice_from. rewrite skipn_skipn. f_equal. lia.
Qed.

Lemma slice_as_firstn {A} (data : list A) (i j : N) :
  slice data i (i + j) = firstn (N.to_nat j) (slice_from data i).
Proof. unfold slice, slice_from. f_equal. lia. Qed.

(** [write_lazy] refines [resolve] whenever the buffer holds at least as
    many placeholder bytes as there are entries: it does not raise, and what
    it writes is the substituted buffer. *)
Lemma write_lazy_from_resolve stack : forall data idx,
  (List.length stack <= placeholders (slice_from data idx))%nat ->
  exists ws,
    write_lazy_from data stack idx = (ws, Ok tt) /\
    concat ws = resolve (slice_from data idx) stack.
Proof.
  induction stack as [|[w b] stack IH]; intros data idx H; simpl.
  - eexists; split; [reflexivity|]. simpl. apply app_nil_r.
  - destruct (split_placeholder (slice_from data idx)) as [[pre post]|] eqn:E.
    + pose proof (split_placeholder_some _ _ _ E) as (Hd & Hn & Hi).
      unfold bytes_index. rewrite Hi. simpl.
      assert (Hpost : slice_from data (idx + len pre + 1) = post).
      { rewrite <- N.add_assoc, slice_from_add, Hd.
        replace (pre ++ LAZY_PLACEHOLDER_BYTE :: post)
          with ((pre ++ [LAZY_PLACEHOLDER_BYTE]) ++ post)
          by now rewrite <- app_assoc.
        apply slice_from_app_len. rewrite len_app. reflexivity. }
      rewrite (placeholders_split _ _ _ E) in H. simpl in H.
      destruct (IH data (idx + len pre + 1)) as (ws & Hw & Hc).
      { rewrite Hpost. lia. }
      rewrite Hw. eexists; split; [reflexivity|].
      simpl. rewrite concat_app, Hc, Hpost. f_equal.
      rewrite slice_as_firstn, Hd. unfold len. rewrite Nnat.Nat2N.id.
      rewrite firstn_app, firstn_all, Nat.sub_diag. simpl. apply app_nil_r.
    + apply split_placeholder_none in E. destruct E as [E _].
      rewrite E in H. simpl in H. lia.
Qed.

Lemma write_lazy_resolve data stack :
  (List.length stack <= placeholders data)%nat ->
  exists ws,
    write_lazy data stack = (ws, Ok tt) /\ concat ws = resolve data stack.
Proof.
  intros H. unfold write_lazy.
  destruct (write_lazy_from_resolve stack data 0) as (ws & Hw & Hc);
    [exact H|].
  exists ws. split; [exact Hw|exact Hc].
Qed.

(** With fewer placeholder bytes than entries [data.index] raises. *)
Lemma write_lazy_from_raises stack : forall data idx,
  (placeholders (slice_from data idx) < List.length stack)%nat ->
  exists ws msg, write_lazy_from data stack idx = (ws, Raise (ValueError msg)).
Proof.
  induction stack as [|[w b] stack IH]; intros data idx H; simpl in *; [lia|].
  destruct (split_placeholder (slice_from data idx)) as [[pre post]|] eqn:E.
  - pose proof (split_placeholder_some _ _ _ E) as (Hd & Hn & Hi).
    unfold bytes_index. rewrite Hi. simpl.
    assert (Hpost : slice_from data (idx + len pre + 1) = post).
    { rewrite <- N.add_assoc, slice_from_add, Hd.
      replace (pre ++ LAZY_PLACEHOLDER_BYTE :: post)
        with ((pre ++ [LAZY_PLACEHOLDER_BYTE]) ++ post)
        by now rewrite <- app_assoc.
      apply slice_from_app_len. rewrite len_app. reflexivity. }
    rewrite (placeholders_split _ _ _ E) in H.
    destruct (IH data (idx + len pre + 1)) as (ws & msg & Hw).
    { rewrite Hpost. lia. }
    rewrite Hw. eexists; eexists; reflexivity.
  - apply split_placeholder_none in E. destruct E as [_ E].
    unfold bytes_index. rewrite E. simpl. eexists; eexists; reflexivity.
Qed.

(** ** The two chunking loops *)

Lemma b2a_hex_app a b : b2a_hex (a ++ b) = b2a_hex a ++ b2a_hex b.
Proof. apply flat_map_app. Qed.

Lemma slice_then_rest {A} (v : list A) (pos k : N) :
  slice v pos (pos + k) ++ slice_from v (pos + k) = slice_from v pos.
Proof.
  rewrite slice_as_firstn, slice_from_add. apply firstn_skipn.
Qed.

Lemma slice_from_all {A} (v : list A) (pos : N) :
  len v <= pos -> slice_from v pos = [].
Proof. unfold len, slice_from. intros H. apply skipn_all2. lia. Qed.

Lemma _lazy_binary_while_concat v n pos :
  n = len v ->
  concat (_lazy_binary_while v n pos) = b2a_hex (slice_from v pos).
Proof.
  funelim (_lazy_binary_while v n pos); intros Hn.
  - simpl. rewrite H0 by exact Hn.
    rewrite <- b2a_hex_app, slice_then_rest. reflexivity.
  - simpl. pose proof (proj1 (N.ltb_ge _ _) H) as Hge. subst length_v.
    now rewrite slice_from_all.
Qed.

(** [_lazy_binary] always returns, and the slices it writes add up to the
    hex text of the whole value. *)
Lemma _lazy_binary_concat v : concat (_lazy_binary v) = b2a_hex v.
Proof.
  unfold _lazy_binary. destruct (len v <=? 65536).
  - simpl. apply app_nil_r.
  - now rewrite _lazy_binary_while_concat.
Qed.

Lemma write_chunks_spec m n pos :
  n = len m -> pos <= n ->
  concat (fst (write_chunks m n pos)) ++ slice_from m (snd (write_chunks m n pos))
  = slice_from m pos /\
  pos <= snd (write_chunks m n pos) <= n /\
  n - snd (write_chunks m n pos) <= 65535.
Proof.
  funelim (write_chunks m n pos); intros Hn Hp.
  - pose proof (proj1 (N.ltb_lt _ _) H) as Hlt.
    destruct (write_chunks m length_m (pos + 65536)) as [ws pos'] eqn:E.
    simpl in *. destruct (H0 Hn) as (Ha & Hb & Hc); [lia|].
    repeat split; try lia.
    rewrite <- app_assoc, Ha. apply slice_then_rest.
  - pose proof (proj1 (N.ltb_ge _ _) H) as Hge. simpl. repeat split; lia.
Qed.

(** ** The record loop of [copy_from] *)

Section CopyFromProperties.

Context {O : Type}.
Variables (tname : str) (columns : list str) (get : O -> list pyval)
          (encs : list encoder) (encoding : codec).

Local Abbreviation record := (copy_from_record tname columns get encs encoding).
Local Abbreviation loop := (copy_from_loop tname columns get encs encoding).
Local Abbreviation finish := (copy_from_finish tname columns).
Local Abbreviation shape := (loop_shape tname columns).

(** One turn of the loop, once the record's encoding is known. *)
Lemma copy_from_record_eq st o row lazy' :
  encode_record encs encoding (get o) (lazy st) = Ok (row, lazy') ->
  record st o =
    let payload := payload st ++ row in
    if 65535 <? len payload then
      ((if negb (use_thread st)
        then [EPipe; EThreadStart tname columns] else [])
         ++ map EPipeWrite
              (match lazy' with
               | _ :: _ => fst (write_lazy payload lazy')
               | [] => fst (write_chunks payload (len payload) 0)
               end),
       match lazy' with
       | _ :: _ =>
           match snd (write_lazy payload lazy') with
           | Ok _ => Ok (mk_cf true [] [])
           | Raise e => Raise e
           end
       | [] =>
           Ok (mk_cf true
                 (slice_from payload
                    (snd (write_chunks payload (len payload) 0))) [])
       end)
    else ([], Ok (mk_cf (use_thread st) payload lazy')).
Proof.
  intros E. unfold copy_from_record, bind, lift, emit, ret, pipe_writes.
  rewrite E. cbv zeta.
  destruct (65535 <? len (payload st ++ row)); [|reflexivity].
  destruct (use_thread st); simpl.
  - destruct lazy' as [|e l].
    + destruct (write_chunks _ _ _) as [ws pos]. simpl.
      now rewrite app_nil_r.
    + destruct (write_lazy _ _) as [ws [[]|err]]; simpl;
        now rewrite ?app_nil_r.
  - destruct lazy' as [|e l].
    + destruct (write_chunks _ _ _) as [ws pos]. simpl.
      now rewrite app_nil_r.
    + destruct (write_lazy _ _) as [ws [[]|err]]; simpl;
        now rewrite ?app_nil_r.
Qed.

Lemma copy_from_record_raise st o e :
  encode_record encs encoding (get o) (lazy st) = Raise e ->
  record st o = ([], Raise e).
Proof.
  intros E. unfold copy_from_record, bind, lift. now rewrite E.
Qed.

Lemma shape_refl b : shape b [] b.
Proof.
  exists []. destruct b; simpl; repeat split; auto.
Qed.

Lemma shape_trans b1 b2 b3 tr1 tr2 :
  shape b1 tr1 b2 -> shape b2 tr2 b3 -> shape b1 (tr1 ++ tr2) b3.
Proof.
  intros (c1 & -> & H1 & H1') (c2 & -> & H2 & H2').
  destruct b1, b2, b3; simpl in *;
    try (specialize (H1 eq_refl)); try (specialize (H2 eq_refl));
    try discriminate;
    try (rewrite (H1' eq_refl)); try (rewrite (H2' eq_refl)); simpl.
  - exists (c1 ++ c2). rewrite map_app. repeat split; auto; discriminate.
  - exists (c1 ++ c2). rewrite map_app. repeat split; auto; discriminate.
  - exists c2. repeat split; auto; discriminate.
  - exists []. repeat split; auto.
Qed.

(** Whatever a record does, its turn of the loop only creates the pipe and
    the thread (when the flag turns) and writes to the pipe. *)
Lemma copy_from_record_shape st o :
  exists b',
    shape (use_thread st) (fst (record st o)) b' /\
    forall st', snd (record st o) = Ok st' -> use_thread st' = b'.
Proof.
  destruct (encode_record encs encoding (get o) (lazy st))
    as [[row lazy']|e] eqn:E.
  - rewrite (copy_from_record_eq _ _ _ _ E). cbv zeta.
    destruct (65535 <? len (payload st ++ row)).
    + exists true. simpl. split.
      * eexists. split; [|split; [auto|discriminate]].
        rewrite andb_true_r. reflexivity.
      * intros st'. destruct lazy' as [|x l].
        -- now intros [= <-].
        -- destruct (snd (write_lazy _ _)); [now intros [= <-]|discriminate].
    + exists (use_thread st). simpl. split; [apply shape_refl|].
      now intros st' [= <-].
  - rewrite (copy_from_record_raise _ _ _ E). simpl.
    exists (use_thread st). split; [apply shape_refl|discriminate].
Qed.

Lemma copy_from_loop_cons o data st :
  loop (o :: data) st =
    match record st o with
    | (t, Ok st') => (t ++ fst (loop data st'), snd (loop data st'))
    | (t, Raise e) => (t, Raise e)
    end.
Proof.
  simpl. unfold bind. destruct (record st o) as [t [st'|e]]; [|reflexivity].
  destruct (loop data st'). reflexivity.
Qed.

Lemma copy_from_loop_shape data : forall st,
  exists b',
    shape (use_thread st) (fst (loop data st)) b' /\
    forall st', snd (loop data st) = Ok st' -> use_thread st' = b'.
Proof.
  induction data as [|o data IH]; intros st.
  - exists (use_thread st). simpl. split; [apply shape_refl|].
    now intros st' [= <-].
  - rewrite copy_from_loop_cons.
    destruct (copy_from_record_shape st o) as (b1 & Hs1 & Hb1).
    destruct (record st o) as [t [st1|e]]; simpl in *.
    + destruct (IH st1) as (b2 & Hs2 & Hb2).
      rewrite (Hb1 st1 eq_refl) in Hs2.
      exists b2. split; [eapply shape_trans; eassumption|exact Hb2].
    + exists b1. split; [exact Hs1|discriminate].
Qed.

Local Abbreviation run := (copy_from tname columns get encs encoding).
Local Abbreviation TEARDOWN := [ECloseWrite; EJoin; ECloseRead].

Lemma copy_from_eq data :
  run data =
    match loop data (mk_cf false [] []) with
    | (t, Ok st) => (t ++ fst (finish st), snd (finish st))
    | (t, Raise e) => (t, Raise e)
    end.
Proof.
  unfold copy_from, bind.
  destruct (loop data _) as [t [st|e]]; [|reflexivity].
  destruct (finish st). reflexivity.
Qed.

(** The code after the loop, case by case. *)
Lemma copy_from_finish_threaded st :
  use_thread st = true ->
  exists ws,
    (finish st = (map EPipeWrite ws ++ TEARDOWN, Ok tt)) \/
    (exists e, finish st = (map EPipeWrite ws, Raise e)).
Proof.
  intros Ht. unfold copy_from_finish, bind, emit, ret, pipe_writes.
  rewrite Ht. destruct (payload st) as [|x p].
  - exists []. left. reflexivity.
  - destruct (lazy st) as [|en l].
    + exists [x :: p]. left. reflexivity.
    + destruct (write_lazy (x :: p) (en :: l)) as [ws [[]|e]]; exists ws.
      * left. reflexivity.
      * right. exists e. reflexivity.
Qed.

Lemma copy_from_finish_unthreaded st :
  use_thread st = false ->
  finish st = ([], Ok tt) \/
  (exists content, finish st = ([ECopyFrom content tname columns], Ok tt)) \/
  (exists e, finish st = ([], Raise e)).
Proof.
  intros Ht. unfold copy_from_finish, bind, emit, ret, lift.
  rewrite Ht. destruct (payload st) as [|x p]; [left; reflexivity|].
  destruct (lazy st) as [|en l].
  - right; left. eexists. reflexivity.
  - destruct (write_lazy (x :: p) (en :: l)) as [ws [[]|e]].
    + right; left. eexists. reflexivity.
    + right; right. eexists. reflexivity.
Qed.

(** The five ways a call of [copy_from] can go. *)
Lemma copy_from_cases data :
  (exists chunks,
      run data = (EPipe :: EThreadStart tname columns
                    :: map EPipeWrite chunks ++ TEARDOWN, Ok tt)) \/
  (exists chunks e,
      run data = (EPipe :: EThreadStart tname columns
                    :: map EPipeWrite chunks, Raise e)) \/
  (exists content, run data = ([ECopyFrom content tname columns], Ok tt)) \/
  run data = ([], Ok tt) \/
  (exists e, run data = ([], Raise e)).
Proof.
  rewrite copy_from_eq.
  destruct (copy_from_loop_shape data (mk_cf false [] []))
    as (b & (chunks & Htr & _ & Hc) & Hb).
  destruct (loop data (mk_cf false [] [])) as [t [st|e]]; simpl in *.
  - specialize (Hb st eq_refl). subst b.
    destruct (use_thread st) eqn:Ht; simpl in Htr.
    + destruct (copy_from_finish_threaded st Ht) as (ws & [Hf|(e & Hf)]);
        rewrite Hf; subst t; simpl.
      * left. exists (chunks ++ ws). now rewrite map_app, <- app_assoc.
      * right; left. exists (chunks ++ ws), e. now rewrite map_app.
    + rewrite (Hc eq_refl) in Htr. subst t. simpl.
      destruct (copy_from_finish_unthreaded st Ht)
        as [Hf|[(content & Hf)|(e & Hf)]]; rewrite Hf; simpl.
      * right; right; right; left. reflexivity.
      * right; right; left. exists content. reflexivity.
      * right; right; right; right. exists e. reflexivity.
  - destruct b; simpl in Htr; subst t.
    + right; left. exists chunks, e. reflexivity.
    + rewrite (Hc eq_refl). simpl.
      right; right; right; right. exists e. reflexivity.
Qed.

Lemma writes_no_teardown chunks :
  existsb is_teardown (map EPipeWrite chunks) = false.
Proof. induction chunks; simpl; auto. Qed.

Lemma writes_no_spawn chunks :
  existsb is_spawn (map EPipeWrite chunks) = false.
Proof. induction chunks; simpl; auto. Qed.

Lemma writes_no_memory_copy chunks :
  existsb is_memory_copy (map EPipeWrite chunks) = false.
Proof. induction chunks; simpl; auto. Qed.

Lemma no_teardown_no_close_read tr tr1 tr2 :
  existsb is_teardown tr = false -> tr <> tr1 ++ ECloseRead :: tr2.
Proof.
  intros H ->. rewrite existsb_app in H. simpl in H.
  now rewrite orb_true_r in H.
Qed.

Lemma split_at_last {A} (x : A) a : forall tr1 tr2,
  ~ In x a -> a ++ [x] = tr1 ++ x :: tr2 -> tr1 = a /\ tr2 = [].
Proof.
  induction a as [|y a IH]; intros tr1 tr2 Hn E.
  - destruct tr1 as [|z tr1]; simpl in E.
    + now inversion E.
    + inversion E as [[Hz Ht]]. destruct tr1; discriminate.
  - destruct tr1 as [|z tr1]; simpl in E.
    + inversion E as [[Hy Ht]]. subst y. exfalso. apply Hn. now left.
    + inversion E as [[Hy Ht]]. subst z.
      destruct (IH tr1 tr2) as [-> ->]; auto.
      intros Hx. apply Hn. now right.
Qed.


Local Abbreviation enc_to := (encodes_to get encs encoding).
Local Abbreviation init := (mk_cf false [] []).

Lemma encodes_to_nonempty o rn : enc_to o rn -> fst rn <> [].
Proof.
  intros H. specialize (H []). unfold encode_record in H.
  destruct (encode_fields _ _) as [[frags lazy']|e]; [|discriminate].
  destruct (encoding _) as [line|e]; [|discriminate].
  inversion H as [[H1 H2]]. now destruct line.
Qed.

Lemma copy_from_loop_app d1 d2 st :
  loop (d1 ++ d2) st =
    match loop d1 st with
    | (t, Ok st1) => (t ++ fst (loop d2 st1), snd (loop d2 st1))
    | (t, Raise e) => (t, Raise e)
    end.
Proof.
  revert st. induction d1 as [|o d1 IH]; intros st.
  - simpl. unfold ret. now destruct (loop d2 st).
  - rewrite <- app_comm_cons, !copy_from_loop_cons.
    destruct (record st o) as [t [st1|e]]; [|reflexivity].
    rewrite IH. destruct (loop d1 st1) as [t1 [st2|e]]; simpl.
    + now rewrite app_assoc.
    + reflexivity.
Qed.

(** Below the threshold nothing happens but the growth of the buffer. *)
Lemma copy_from_loop_below data rows : forall st,
  Forall2 enc_to data rows ->
  use_thread st = false ->
  len (payload st ++ concat (map fst rows)) <= 65535 ->
  loop data st =
    ([], Ok (mk_cf false (payload st ++ concat (map fst rows))
               (lazy st ++ concat (map snd rows)))).
Proof.
  intros st H. revert st.
  induction H as [|o rn data rows Ho _ IH]; intros st Ht Hl.
  - simpl. rewrite !app_nil_r. unfold ret. destruct st; simpl in *. now subst.
  - rewrite copy_from_loop_cons.
    rewrite (copy_from_record_eq _ _ _ _ (Ho (lazy st))). cbv zeta.
    simpl in Hl. rewrite app_assoc in Hl.
    assert (Hs : (65535 <? len (payload st ++ fst rn)) = false).
    { apply N.ltb_ge. rewrite len_app in Hl. lia. }
    rewrite Hs, Ht. rewrite IH; simpl; auto.
    now rewrite <- !app_assoc.
Qed.

(** The first record that takes the buffer over the threshold creates the
    pipe and the thread. *)
Lemma copy_from_record_breach st o rn :
  enc_to o rn -> covered rn ->
  use_thread st = false ->
  (List.length (lazy st) <= placeholders (payload st))%nat ->
  65536 <= len (payload st ++ fst rn) ->
  exists chunks st',
    record st o
    = ([EPipe; EThreadStart tname columns] ++ map EPipeWrite chunks, Ok st') /\
    use_thread st' = true /\
    (List.length (lazy st') <= placeholders (payload st'))%nat.
Proof.
  intros Ho Hc Ht Hcov Hl.
  rewrite (copy_from_record_eq _ _ _ _ (Ho (lazy st))). cbv zeta.
  assert (Hs : (65535 <? len (payload st ++ fst rn)) = true)
    by (apply N.ltb_lt; lia).
  rewrite Hs, Ht. simpl negb. cbv iota.
  destruct (lazy st ++ snd rn) as [|e l] eqn:El.
  - eexists; eexists. split; [reflexivity|]. simpl. split; [reflexivity|lia].
  - destruct (write_lazy_resolve (payload st ++ fst rn) (e :: l))
      as (ws & Hw & _).
    { rewrite <- El, length_app, placeholders_app. unfold covered in Hc. lia. }
    rewrite Hw. simpl. eexists; eexists. split; [reflexivity|].
    simpl. split; [reflexivity|lia].
Qed.

Lemma placeholders_slice_from data pos :
  (placeholders (slice_from data pos) <= placeholders data)%nat.
Proof.
  unfold slice_from.
  rewrite <- (firstn_skipn (N.to_nat pos) data) at 2.
  rewrite placeholders_app. lia.
Qed.

(** With every entry covered by a placeholder the loop never raises. *)
Lemma copy_from_loop_covered data rows : forall st,
  Forall2 enc_to data rows -> Forall covered rows ->
  (List.length (lazy st) <= placeholders (payload st))%nat ->
  exists st',
    snd (loop data st) = Ok st' /\
    (List.length (lazy st') <= placeholders (payload st'))%nat.
Proof.
  intros st H. revert st.
  induction H as [|o rn data rows Ho _ IH]; intros st Hc Hcov.
  - exists st. split; [reflexivity|exact Hcov].
  - inversion Hc as [|? ? Hrn Hrows]; subst.
    rewrite copy_from_loop_cons.
    rewrite (copy_from_record_eq _ _ _ _ (Ho (lazy st))). cbv zeta.
    assert (Hcov' : (List.length (lazy st ++ snd rn)
                     <= placeholders (payload st ++ fst rn))%nat).
    { rewrite length_app, placeholders_app. unfold covered in Hrn. lia. }
    destruct (65535 <? len (payload st ++ fst rn)).
    + destruct (lazy st ++ snd rn) as [|e l] eqn:El.
      * apply IH; [exact Hrows|]. simpl. lia.
      * destruct (write_lazy_resolve (payload st ++ fst rn) (e :: l))
          as (ws & Hw & _); [exact Hcov'|].
        rewrite Hw. simpl. apply IH; [exact Hrows|]. simpl. lia.
    + apply IH; [exact Hrows|exact Hcov'].
Qed.

Lemma delivered_app t1 t2 : delivered (t1 ++ t2) = delivered t1 ++ delivered t2.
Proof.
  induction t1 as [|e t1 IH]; simpl; [reflexivity|].
  destruct e; simpl; rewrite ?IH, <- ?app_assoc; reflexivity.
Qed.

Lemma delivered_writes ws : delivered (map EPipeWrite ws) = concat ws.
Proof. induction ws; simpl; congruence. Qed.

Lemma delivered_spawn t :
  delivered ((if negb t then [EPipe; EThreadStart tname columns] else []))
  = [].
Proof. now destruct t. Qed.

(** When the placeholder byte occurs only as a placeholder, the loop hands
    over, in order, the substituted bytes of the records: what was written
    plus what is still pending is what was pending plus the new records. *)
Lemma copy_from_loop_aligned data rows : forall st,
  Forall2 enc_to data rows -> Forall aligned rows ->
  placeholders (payload st) = List.length (lazy st) ->
  exists st',
    snd (loop data st) = Ok st' /\
    placeholders (payload st') = List.length (lazy st') /\
    delivered (fst (loop data st)) ++ pending st'
    = pending st
        ++ concat (map (fun rn => resolve (fst rn) (snd rn)) rows).
Proof.
  intros st H. revert st.
  induction H as [|o rn data rows Ho _ IH]; intros st Ha Hal.
  - exists st. simpl. rewrite app_nil_r. auto.
  - inversion Ha as [|? ? Hrn Hrows]; subst.
    rewrite copy_from_loop_cons.
    rewrite (copy_from_record_eq _ _ _ _ (Ho (lazy st))). cbv zeta.
    assert (Hal' : placeholders (payload st ++ fst rn)
                   = List.length (lazy st ++ snd rn)).
    { rewrite length_app, placeholders_app. unfold aligned in Hrn. lia. }
    assert (Hp : resolve (payload st ++ fst rn) (lazy st ++ snd rn)
                 = pending st ++ resolve (fst rn) (snd rn))
      by now apply resolve_app.
    simpl map. simpl concat. rewrite app_assoc, <- Hp. clear Hp.
    set (P := payload st ++ fst rn) in *.
    set (L := lazy st ++ snd rn) in *.
    destruct (65535 <? len P).
    + destruct L as [|e l] eqn:El.
      * pose proof (write_chunks_spec P _ 0 eq_refl (N.le_0_l _))
          as (Hw & _ & _).
        destruct (write_chunks P (len P) 0) as [ws pos].
        simpl fst in *. simpl snd in *.
        change (slice_from P 0) with P in Hw.
        destruct (IH (mk_cf true (slice_from P pos) []))
          as (st' & Hs & Ha' & Hd); [exact Hrows| |].
        { simpl. simpl in Hal'.
          pose proof (placeholders_slice_from P pos). lia. }
        exists st'. split; [exact Hs|]. split; [exact Ha'|].
        rewrite !delivered_app, delivered_spawn, delivered_writes.
        simpl app at 1. rewrite <- app_assoc, Hd.
        unfold pending at 1. simpl payload. simpl lazy.
        rewrite !resolve_nil_stack, app_assoc. now rewrite Hw.
      * destruct (write_lazy_resolve P (e :: l)) as (ws & Hw & Hc); [lia|].
        rewrite Hw.
        destruct (IH (mk_cf true [] [])) as (st' & Hs & Ha' & Hd);
          [exact Hrows|reflexivity|].
        simpl fst in *. simpl snd in *.
        exists st'. split; [exact Hs|]. split; [exact Ha'|].
        rewrite !delivered_app, delivered_spawn, delivered_writes.
        simpl app at 1. rewrite <- app_assoc, Hd.
        unfold pending at 1. simpl. now rewrite Hc.
    + destruct (IH (mk_cf (use_thread st) P L))
        as (st' & Hs & Ha' & Hd); [exact Hrows|exact Hal'|].
      exists st'. simpl snd. simpl fst.
      split; [exact Hs|]. split; [exact Ha'|]. exact Hd.
Qed.

(** The code after the loop hands over what is pending. *)
Lemma copy_from_finish_covered st :
  (List.length (lazy st) <= placeholders (payload st))%nat ->
  snd (finish st) = Ok tt /\
  delivered (fst (finish st)) = pending st /\
  fst (finish st) =
    if use_thread st then
      match payload st with
      | [] => TEARDOWN
      | _ :: _ =>
          map EPipeWrite
            (match lazy st with
             | [] => [payload st]
             | _ :: _ => fst (write_lazy (payload st) (lazy st))
             end) ++ TEARDOWN
      end
    else
      match payload st with
      | [] => []
      | _ :: _ => [ECopyFrom (pending st) tname columns]
      end.
Proof.
  intros Hc. unfold copy_from_finish, pending, bind, emit, ret, lift,
    pipe_writes.
  destruct (use_thread st); destruct (payload st) as [|x p] eqn:Ep.
  - unfold placeholders in Hc. destruct (lazy st); [|simpl in Hc; lia]. auto.
  - destruct (lazy st) as [|e l] eqn:El.
    + simpl. rewrite app_nil_r. auto.
    + destruct (write_lazy_resolve (x :: p) (e :: l)) as (ws & Hw & Hr);
        [exact Hc|].
      rewrite Hw. simpl fst. simpl snd. cbv iota beta.
      split; [reflexivity|]. split; [|reflexivity].
      rewrite delivered_app, delivered_writes. simpl.
      now rewrite app_nil_r.
  - unfold placeholders in Hc. destruct (lazy st); [|simpl in Hc; lia]. auto.
  - destruct (lazy st) as [|e l] eqn:El.
    + simpl. rewrite app_nil_r. auto.
    + destruct (write_lazy_resolve (x :: p) (e :: l)) as (ws & Hw & Hr);
        [exact Hc|].
      rewrite Hw. simpl. rewrite app_nil_r, Hr. auto.
Qed.

Lemma covered_concat rows :
  Forall covered rows ->
  (List.length (concat (map snd rows))
   <= placeholders (concat (map fst rows)))%nat.
Proof.
  induction 1 as [|rn rows Hrn _ IH]; simpl; [lia|].
  rewrite length_app, placeholders_app. unfold covered in Hrn. lia.
Qed.

Lemma aligned_covered rows : Forall aligned rows -> Forall covered rows.
Proof.
  apply Forall_impl. intros rn H. unfold aligned in H. unfold covered. lia.
Qed.

Lemma rows_nonempty data rows :
  Forall2 enc_to data rows ->
  match data with
  | [] => concat (map fst rows) = []
  | _ :: _ => concat (map fst rows) <> []
  end.
Proof.
  destruct 1 as [|o rn data rows Ho _]; [reflexivity|].
  simpl. pose proof (encodes_to_nonempty _ _ Ho) as Hn.
  destruct (fst rn); [contradiction|discriminate].
Qed.


Lemma index_of_segment seg rest :
  placeholders seg = 0%nat ->
  index_of LAZY_PLACEHOLDER_BYTE (seg ++ LAZY_PLACEHOLDER_BYTE :: rest)
  = Some (len seg).
Proof.
  intros H.
  pose proof (split_placeholder_app seg (LAZY_PLACEHOLDER_BYTE :: rest) H)
    as E.
  simpl in E. apply split_placeholder_some in E. destruct E as (_ & _ & E).
  now rewrite app_nil_r in E.
Qed.

Lemma write_lazy_from_expected segs : forall stack done last,
  List.length segs = List.length stack ->
  Forall (fun seg => placeholders seg = 0%nat) segs ->
  write_lazy_from
    (done ++ concat (map (fun seg => seg ++ [LAZY_PLACEHOLDER_BYTE]) segs)
       ++ last) stack (len done)
  = (expected_writes segs stack last, Ok tt).
Proof.
  induction segs as [|seg segs IH]; intros [|[w b] stack] done last Hl Hf;
    try discriminate; simpl.
  - now rewrite slice_from_app_len.
  - inversion Hf as [|? ? Hseg Hsegs]; subst.
    unfold bytes_index.
    rewrite (slice_from_app_len done _ (len done) eq_refl).
    rewrite <- !app_assoc. simpl.
    rewrite (index_of_segment seg _ Hseg). simpl.
    specialize (IH stack (done ++ seg ++ [LAZY_PLACEHOLDER_BYTE]) last).
    rewrite !len_app in IH. change (len [LAZY_PLACEHOLDER_BYTE]) with 1 in IH.
    rewrite <- !app_assoc in IH. simpl in IH.
    rewrite N.add_assoc in IH. rewrite IH; [|now inversion Hl|exact Hsegs].
    f_equal. f_equal.
    rewrite slice_as_firstn, (slice_from_app_len done _ (len done) eq_refl).
    unfold len. rewrite Nnat.Nat2N.id, firstn_app, firstn_all, Nat.sub_diag.
    simpl. apply app_nil_r.
Qed.

(** With aligned records [copy_from] returns, and the sink receives the
    substituted bytes of the records in order. *)
Lemma copy_from_delivered data rows :
  Forall2 enc_to data rows -> Forall aligned rows ->
  snd (run data) = Ok tt /\
  delivered (fst (run data))
  = concat (map (fun rn => resolve (fst rn) (snd rn)) rows).
Proof.
  intros Hd Ha. rewrite copy_from_eq.
  destruct (copy_from_loop_aligned data rows init Hd Ha eq_refl)
    as (st & Hs & Hal & Hdel).
  destruct (loop data init) as [t [st'|e]]; simpl in Hs; [|discriminate].
  inversion Hs; subst st'. simpl in Hdel.
  destruct (copy_from_finish_covered st) as (Hf & Hp & _); [lia|].
  simpl. split; [exact Hf|].
  now rewrite delivered_app, Hp.
Qed.


End CopyFromProperties.

(** ** Deferred and immediate binary encoding *)

Lemma byte_of_code_nonzero c : 0 < c -> c < 256 -> byte_of_code c <> x00.
Proof.
  intros H0 H1. unfold byte_of_code. destruct (Byte.of_N c) eqn:E.
  - apply Byte.to_of_N in E. intros ->. simpl in E. lia.
  - apply Byte.of_N_None_iff in E. lia.
Qed.

Lemma hex_digit_range n : n < 16 -> 48 <= hex_digit n < 128.
Proof. unfold hex_digit. destruct (N.ltb_spec n 10); lia. Qed.

Lemma hex_of_byte_range b : Forall (fun c => 48 <= c < 128) (hex_of_byte b).
Proof.
  unfold hex_of_byte. pose proof (Byte.to_N_bounded b) as Hb.
  constructor; [|constructor; [|constructor]]; apply hex_digit_range.
  - apply N.Div0.div_lt_upper_bound. lia.
  - apply N.mod_lt. lia.
Qed.

Lemma bytes_hex_range v : Forall (fun c => 48 <= c < 128) (bytes_hex v).
Proof.
  induction v as [|b v IH]; [constructor|].
  change (bytes_hex (b :: v)) with (hex_of_byte b ++ bytes_hex v).
  apply Forall_app. split; [apply hex_of_byte_range|exact IH].
Qed.

Lemma b2a_hex_map v : b2a_hex v = map byte_of_code (bytes_hex v).
Proof.
  induction v as [|b v IH]; [reflexivity|].
  change (bytes_hex (b :: v)) with (hex_of_byte b ++ bytes_hex v).
  change (b2a_hex (b :: v))
    with (map byte_of_code (hex_of_byte b) ++ b2a_hex v).
  rewrite IH. symmetry. apply map_app.
Qed.

Lemma placeholders_ascii_bytes s :
  Forall (fun c => 48 <= c < 128) s -> placeholders (map byte_of_code s) = 0%nat.
Proof.
  induction 1 as [|c s Hc _ IH]; [reflexivity|].
  unfold placeholders in *. simpl.
  destruct (Byte.byte_eq_dec (byte_of_code c) LAZY_PLACEHOLDER_BYTE) as [E|_];
    [|exact IH].
  exfalso. revert E. apply byte_of_code_nonzero; lia.
Qed.

Lemma placeholders_b2a_hex v : placeholders (b2a_hex v) = 0%nat.
Proof.
  rewrite b2a_hex_map. apply placeholders_ascii_bytes, bytes_hex_range.
Qed.

Lemma resolve_cons c data stack :
  c <> LAZY_PLACEHOLDER_BYTE ->
  resolve (c :: data) stack = c :: resolve data stack.
Proof.
  intros Hc. change (c :: data) with ([c] ++ data).
  change stack with ([] ++ stack). rewrite resolve_app; [reflexivity|].
  unfold placeholders. simpl.
  destruct (Byte.byte_eq_dec c LAZY_PLACEHOLDER_BYTE); congruence.
Qed.

Lemma combine_map_l {A B C} (f : A -> B) (l : list A) (l' : list C) :
  combine (map f l) l' = map (fun p => (f (fst p), snd p)) (combine l l').
Proof.
  revert l'. induction l as [|a l IH]; intros [|c l']; simpl; try reflexivity.
  now rewrite IH.
Qed.

Lemma join_cons sep p ps :
  join sep (p :: ps) = p ++ flat_map (fun g => sep ++ g) ps.
Proof.
  revert p. induction ps as [|q ps IH]; intros p.
  - simpl. now rewrite app_nil_r.
  - change (join sep (p :: q :: ps)) with (p ++ sep ++ join sep (q :: ps)).
    rewrite IH. simpl. now rewrite <- !app_assoc.
Qed.

Section BinaryDeferral.

Context {O : Type}.
Variables (tname : str) (columns : list str) (get : O -> list pyval)
          (encoding : codec).
Hypothesis Hcodec : ascii_compatible encoding.

Lemma encode_ascii_text s :
  Forall (fun c => c < 128) s ->
  forall b y, encoding b = Ok y ->
  encoding (s ++ b) = Ok (map byte_of_code s ++ y).
Proof.
  induction 1 as [|c s Hc _ IH]; intros b y Hb; [exact Hb|].
  simpl.
  apply (encode_ascii encoding Hcodec [] c (s ++ b) []
           (map byte_of_code s ++ y) Hc (encode_nil encoding Hcodec)).
  now apply IH.
Qed.

Lemma encode_ascii_only s :
  Forall (fun c => c < 128) s -> encoding s = Ok (map byte_of_code s).
Proof.
  intros H.
  pose proof (encode_ascii_text s H [] [] (encode_nil encoding Hcodec)) as E.
  now rewrite !app_nil_r in E.
Qed.

Lemma binary_text_ascii b :
  Forall (fun c => 48 <= c < 128) (HEX_PREFIX ++ bytes_hex b).
Proof.
  apply Forall_app. split; [|apply bytes_hex_range].
  repeat constructor; unfold BACKSLASH; lia.
Qed.

Lemma weaken_range s :
  Forall (fun c => 48 <= c < 128) s -> Forall (fun c => c < 128) s.
Proof. apply Forall_impl. intros c H. lia. Qed.

Lemma binary_cell_facts b :
  let x := binary_cell b in
  encoding (lazy_text x) = Ok (lazy_bytes x) /\
  encoding (inline_text x) = Ok (inline_bytes x) /\
  placeholders (lazy_bytes x) = List.length (entries x) /\
  resolve (lazy_bytes x) (entries x) = inline_bytes x /\
  placeholders (inline_bytes x) = 0%nat.
Proof.
  pose proof (binary_text_ascii b) as Hr.
  pose proof (encode_ascii_only _ (weaken_range _ Hr)) as Hi.
  pose proof (placeholders_ascii_bytes _ Hr) as Hp.
  unfold binary_cell. destruct (4096 <? len b); simpl.
  - repeat split; auto.
    + apply encode_ascii_only. repeat constructor; unfold BACKSLASH, NUL; lia.
    + rewrite _lazy_binary_concat, app_nil_r. now rewrite b2a_hex_map.
  - repeat split; auto.
Qed.

Lemma binary_encoders_cell b :
  (forall lazy,
      Binary (VBytes b) lazy
      = Ok (VStr (lazy_text (binary_cell b)), lazy ++ entries (binary_cell b))
      /\ Binary (VMemoryview b) lazy = Binary (VBytes b) lazy
      /\ BinaryOrNone (VBytes b) lazy = Binary (VBytes b) lazy
      /\ BinaryOrNone (VMemoryview b) lazy = Binary (VBytes b) lazy) /\
  (forall lazy,
      Binary_inline (VBytes b) lazy
      = Ok (VStr (inline_text (binary_cell b)), lazy)
      /\ Binary_inline (VMemoryview b) lazy = Binary_inline (VBytes b) lazy
      /\ BinaryOrNone_inline (VBytes b) lazy = Binary_inline (VBytes b) lazy
      /\ BinaryOrNone_inline (VMemoryview b) lazy
         = Binary_inline (VBytes b) lazy).
Proof.
  unfold binary_cell, Binary, BinaryOrNone, Binary_inline, BinaryOrNone_inline.
  split; intros lazy; destruct (4096 <? len b); simpl;
    rewrite ?app_nil_r; auto.
Qed.

Lemma cell_ok_cell c v :
  cell_ok encoding c v -> exists x, cell_of encoding c v x.
Proof.
  destruct c as [nullable|enc]; simpl.
  - intros [(b & Hv)|[-> ->]].
    + exists (binary_cell b).
      destruct (binary_encoders_cell b) as [Hl Hi].
      pose proof (binary_cell_facts b) as Hf. cbv zeta in Hf.
      split; [|split; [|exact Hf]].
      * intros lazy. destruct (Hl lazy) as (H1 & H2 & H3 & H4).
        exists (VStr (lazy_text (binary_cell b))). split; [|reflexivity].
        destruct Hv as [->| ->], nullable; unfold column_encoder; congruence.
      * intros lazy. destruct (Hi lazy) as (H1 & H2 & H3 & H4).
        exists (VStr (inline_text (binary_cell b))). split; [|reflexivity].
        destruct Hv as [->| ->], nullable; unfold column_inline; congruence.
    + exists {| lazy_text := NULL; lazy_bytes := map byte_of_code NULL;
                entries := []; inline_text := NULL;
                inline_bytes := map byte_of_code NULL |}.
      assert (Hn : encoding NULL = Ok (map byte_of_code NULL)).
      { apply encode_ascii_only. repeat constructor; unfold BACKSLASH; lia. }
      unfold cell_of. simpl.
      repeat split; auto; intros lazy; exists (VStr NULL);
        rewrite ?app_nil_r; split; reflexivity.
  - intros (r & bs & He & Hb & Hp).
    exists {| lazy_text := py_format r; lazy_bytes := bs; entries := [];
              inline_text := py_format r; inline_bytes := bs |}.
    unfold cell_of. simpl.
    repeat split; auto; intros lazy; exists r; rewrite ?app_nil_r;
      split; auto.
Qed.

Lemma cells_exist cols vals :
  Forall2 (cell_ok encoding) cols vals ->
  exists xs,
    Forall2 (fun cv x => cell_of encoding (fst cv) (snd cv) x)
      (combine cols vals) xs.
Proof.
  induction 1 as [|c v cols vals Hc _ (xs & IH)].
  - exists []. constructor.
  - destruct (cell_ok_cell c v Hc) as (x & Hx).
    exists (x :: xs). simpl. now constructor.
Qed.

Lemma encode_fields_cells pairs xs :
  Forall2 (fun cv x => cell_of encoding (fst cv) (snd cv) x) pairs xs ->
  forall lazy,
    encode_fields (map (fun cv => (column_encoder (fst cv), snd cv)) pairs)
      lazy
    = Ok (map lazy_text xs, lazy ++ concat (map entries xs)) /\
    encode_fields (map (fun cv => (column_inline (fst cv), snd cv)) pairs)
      lazy
    = Ok (map inline_text xs, lazy).
Proof.
  induction 1 as [|[c v] x pairs xs Hx _ IH]; intros lazy; simpl.
  - now rewrite app_nil_r.
  - destruct Hx as (Hl & Hi & _). simpl in Hl, Hi.
    destruct (Hl lazy) as (r1 & -> & <-).
    destruct (Hi lazy) as (r2 & -> & <-).
    destruct (IH (lazy ++ entries x)) as [-> _].
    destruct (IH lazy) as [_ ->].
    now rewrite <- app_assoc.
Qed.

Lemma encode_line_tail (text : cell -> str) (bs : cell -> bytes) xs :
  Forall (fun x => encoding (text x) = Ok (bs x)) xs ->
  forall g bg, encoding g = Ok bg ->
  encoding (g ++ flat_map (fun t => [9] ++ t) (map text xs))
  = Ok (bg ++ flat_map (fun b => x09 :: b) (map bs xs)).
Proof.
  induction 1 as [|x xs Hx _ IH]; intros g bg Hg; simpl.
  - now rewrite !app_nil_r.
  - rewrite <- ?app_assoc.
    apply (encode_ascii encoding Hcodec g 9 _ bg _ eq_refl Hg).
    now apply IH.
Qed.

Lemma encode_line (text : cell -> str) (bs : cell -> bytes) xs :
  Forall (fun x => encoding (text x) = Ok (bs x)) xs ->
  encoding (join [9] (map text xs)) = Ok (line_bytes (map bs xs)).
Proof.
  destruct 1 as [|x xs Hx Hxs]; simpl map.
  - apply (encode_nil encoding Hcodec).
  - rewrite join_cons. now apply encode_line_tail.
Qed.

Lemma resolve_line_tail xs : forall rest,
  Forall (fun x => placeholders (lazy_bytes x) = List.length (entries x) /\
                   resolve (lazy_bytes x) (entries x) = inline_bytes x) xs ->
  placeholders rest = 0%nat ->
  let data := flat_map (fun b => x09 :: b) (map lazy_bytes xs) ++ rest in
  placeholders data = List.length (concat (map entries xs)) /\
  resolve data (concat (map entries xs))
  = flat_map (fun b => x09 :: b) (map inline_bytes xs) ++ rest.
Proof.
  intros rest H Hr. cbv zeta.
  induction H as [|x xs (Hp & Hx) _ (IHp & IHr)]; simpl.
  - split; [exact Hr|reflexivity].
  - rewrite <- !app_assoc, length_app.
    assert (Hp1 : placeholders (x09 :: lazy_bytes x)
                  = List.length (entries x)) by exact Hp.
    split.
    + change (x09 :: lazy_bytes x ++ ?t) with ((x09 :: lazy_bytes x) ++ t).
      rewrite placeholders_app. lia.
    + change (x09 :: lazy_bytes x ++ ?t) with ((x09 :: lazy_bytes x) ++ t).
      rewrite resolve_app by exact Hp1.
      rewrite resolve_cons by discriminate. now rewrite Hx, IHr.
Qed.

Lemma Forall2_right {A B} (R : A -> B -> Prop) (P : B -> Prop) l xs :
  Forall2 R l xs -> (forall a x, R a x -> P x) -> Forall P xs.
Proof.
  intros H HP. induction H; constructor; eauto.
Qed.

Lemma placeholders_line xs :
  Forall (fun x => placeholders (inline_bytes x) = 0%nat) xs ->
  placeholders (line_bytes (map inline_bytes xs) ++ [x0a]) = 0%nat.
Proof.
  intros H. rewrite placeholders_app, Nat.add_0_r.
  destruct H as [|x xs Hx Hxs]; [reflexivity|]. simpl.
  rewrite placeholders_app, Hx. simpl.
  induction Hxs as [|y ys Hy _ IH]; [reflexivity|]. simpl.
  change (x09 :: inline_bytes y ++ ?t) with ((x09 :: inline_bytes y) ++ t).
  rewrite placeholders_app, IH, Nat.add_0_r. exact Hy.
Qed.

(** One record on both paths. *)
Lemma record_cells cols vals :
  Forall2 (cell_ok encoding) cols vals ->
  exists row new row_i,
    (forall lazy,
        encode_record (map column_encoder cols) encoding vals lazy
        = Ok (row, lazy ++ new)) /\
    (forall lazy,
        encode_record (map column_inline cols) encoding vals lazy
        = Ok (row_i, lazy ++ [])) /\
    placeholders row = List.length new /\
    resolve row new = row_i /\
    placeholders row_i = 0%nat.
Proof.
  intros H. destruct (cells_exist cols vals H) as (xs & Hxs).
  pose proof (encode_fields_cells _ _ Hxs) as Hf.
  assert (Hl : Forall (fun x => encoding (lazy_text x) = Ok (lazy_bytes x)) xs).
  { apply (Forall2_right _ _ _ _ Hxs). intros a x Hx. apply Hx. }
  assert (Hi : Forall (fun x => encoding (inline_text x)
                               = Ok (inline_bytes x)) xs).
  { apply (Forall2_right _ _ _ _ Hxs). intros a x Hx. apply Hx. }
  assert (Hr : Forall (fun x => placeholders (lazy_bytes x)
                                = List.length (entries x) /\
                                resolve (lazy_bytes x) (entries x)
                                = inline_bytes x) xs).
  { apply (Forall2_right _ _ _ _ Hxs). intros a x Hx.
    split; apply Hx. }
  assert (Hz : Forall (fun x => placeholders (inline_bytes x) = 0%nat) xs).
  { apply (Forall2_right _ _ _ _ Hxs). intros a x Hx. apply Hx. }
  exists (line_bytes (map lazy_bytes xs) ++ [x0a]),
         (concat (map entries xs)),
         (line_bytes (map inline_bytes xs) ++ [x0a]).
  split; [|split; [|split; [|split]]].
  - intros lazy. unfold encode_record. rewrite combine_map_l.
    destruct (Hf lazy) as [-> _].
    now rewrite (encode_line lazy_text lazy_bytes xs Hl).
  - intros lazy. unfold encode_record. rewrite combine_map_l.
    destruct (Hf lazy) as [_ ->].
    rewrite (encode_line inline_text inline_bytes xs Hi).
    now rewrite app_nil_r.
  - destruct Hr as [|x xs' (Hp & Hx) Hr']; [reflexivity|].
    simpl. rewrite <- app_assoc, placeholders_app, length_app, Hp.
    now destruct (resolve_line_tail xs' [x0a] Hr' eq_refl) as [-> _].
  - destruct Hr as [|x xs' (Hp & Hx) Hr']; [reflexivity|].
    simpl. rewrite <- !app_assoc. rewrite resolve_app by exact Hp.
    destruct (resolve_line_tail xs' [x0a] Hr' eq_refl) as [_ ->].
    now rewrite Hx.
  - now apply placeholders_line.
Qed.

Lemma rows_exist cols data :
  (forall o, In o data -> Forall2 (cell_ok encoding) cols (get o)) ->
  exists rows,
    Forall2 (encodes_to get (map column_encoder cols) encoding) data rows /\
    Forall aligned rows /\
    Forall2 (encodes_to get (map column_inline cols) encoding) data
      (map (fun rn => (resolve (fst rn) (snd rn), [])) rows) /\
    Forall aligned (map (fun rn => (resolve (fst rn) (snd rn), [])) rows).
Proof.
  induction data as [|o data IH]; intros H.
  - exists []. repeat split; constructor.
  - destruct IH as (rows & H1 & H2 & H3 & H4).
    { intros o' Ho'. apply H. now right. }
    destruct (record_cells cols (get o) (H o (or_introl eq_refl)))
      as (row & new & row_i & Hl & Hi & Hp & Hr & Hz).
    exists ((row, new) :: rows). simpl. rewrite Hr.
    repeat split; constructor; auto.
Qed.

(** One deferred value, flushed on its own: what [write_lazy] writes for
    the encoded placeholder fragment is the encoded immediate fragment. *)
Lemma deferred_value_flush b :
  4096 < len b ->
  exists data ws,
    encoding (HEX_PREFIX ++ LAZY_PLACEHOLDER) = Ok data /\
    write_lazy data [(_lazy_binary, b)] = (ws, Ok tt) /\
    encoding (HEX_PREFIX ++ bytes_hex b) = Ok (concat ws).
Proof.
  intros H. apply N.ltb_lt in H.
  pose proof (binary_cell_facts b) as F. unfold binary_cell in F.
  rewrite H in F. cbv zeta in F.
  cbn [lazy_text lazy_bytes entries inline_text inline_bytes] in F.
  destruct F as (E1 & E2 & P & R & _).
  destruct (write_lazy_resolve
              (map byte_of_code (HEX_PREFIX ++ LAZY_PLACEHOLDER))
              [(_lazy_binary, b)]) as (ws & Hw & Hc).
  { rewrite P. apply Nat.le_refl. }
  exists (map byte_of_code (HEX_PREFIX ++ LAZY_PLACEHOLDER)), ws.
  split; [exact E1|]. split; [exact Hw|].
  rewrite Hc. etransitivity; [exact E2|]. f_equal. symmetry. exact R.
Qed.


End BinaryDeferral.

(** ** Encoder resolution and the orchestrator *)

Lemma get_encoder_relation reg f t :
  target_field f = Some t -> get_encoder reg f = get_encoder reg t.
Proof. destruct f; simpl. now intros ->. Qed.

Lemma get_encoder_plain reg f :
  target_field f = None ->
  get_encoder reg f = get_encoder_mro reg (mro f) (null f) (label f).
Proof. destruct f; simpl. now intros ->. Qed.

(** The walk returns the pair of the first registered class, most derived
    first, and picks the member by the flag it is given. *)
Lemma get_encoder_mro_first reg before cls after pair f_null f_label :
  Forall (fun c => dict_get reg c = None) before ->
  dict_get reg cls = Some pair ->
  get_encoder_mro reg (before ++ cls :: after) f_null f_label
  = Ok (if f_null then snd pair else fst pair).
Proof.
  induction 1 as [|c before Hc _ IH]; intros Hp; simpl.
  - now rewrite Hp.
  - rewrite Hc. now apply IH.
Qed.

Lemma get_encoder_mro_none reg classes f_null f_label :
  Forall (fun c => dict_get reg c = None) classes ->
  get_encoder_mro reg classes f_null f_label
  = Raise (NotImplementedError
             (u "no suitable encoder found for field " ++ f_label)).
Proof.
  induction 1 as [|c classes Hc _ IH]; simpl; [reflexivity|].
  now rewrite Hc.
Qed.

(** A field without encoder stops [copy_update] before it touches the
    database or encodes a row. *)
Lemma copy_update_resolution_failure reg B objs fieldnames field_encoders
    encoding non_local x local fields e :
  split_fieldnames B fieldnames = Ok (non_local, x :: local) ->
  map_res (get_field B) (x :: local) = Ok fields ->
  map_res (get_encoder reg) (pk B :: fields) = Raise e ->
  copy_update reg B objs fieldnames field_encoders encoding = ([], Raise e).
Proof.
  intros H1 H2 H3. unfold copy_update, bind, lift.
  rewrite H1. cbv iota beta. rewrite H2. cbv iota beta. now rewrite H3.
Qed.

(** An override whose key names one of the resolved fields assigns into the
    tuple [encs], which raises. *)
Lemma apply_field_encoders_tuple attnames encs items :
  existsb (fun kv => match index_str attnames (fst kv) with
                     | Some _ => true
                     | None => false
                     end) items = true ->
  apply_field_encoders (PyTuple attnames) (PyTuple encs) items
  = Raise (TypeError (u "'tuple' object does not support item assignment")).
Proof.
  induction items as [|[fname enc] items IH]; simpl; [discriminate|].
  destruct (index_str attnames fname); simpl; [reflexivity|exact IH].
Qed.

Lemma copy_update_override_raises reg B objs fieldnames items encoding
    non_local x local fields resolved :
  split_fieldnames B fieldnames = Ok (non_local, x :: local) ->
  map_res (get_field B) (x :: local) = Ok fields ->
  map_res (get_encoder reg) (pk B :: fields) = Ok resolved ->
  existsb (fun kv => match index_str (map attname (pk B :: fields))
                             (fst kv) with
                     | Some _ => true
                     | None => false
                     end) items = true ->
  copy_update reg B objs fieldnames (Some items) encoding
  = ([], Raise (TypeError
                  (u "'tuple' object does not support item assignment"))).
Proof.
  intros H1 H2 H3 H4. unfold copy_update, bind, lift.
  rewrite H1. cbv iota beta. rewrite H2. cbv iota beta. rewrite H3.
  cbv iota beta. destruct items as [|kv items]; [discriminate|].
  simpl seq_items in *.
  now rewrite (apply_field_encoders_tuple _ resolved (kv :: items) H4).
Qed.

End Properties.

(** ** Codecs of [CONNECTION_ENCODINGS] *)

Lemma charmap_ascii_compatible table :
  (forall c, c < 128 -> table c = Some [byte_of_code c]) ->
  ascii_compatible (charmap_encode table).
Proof.
  intros Ht. split; [reflexivity|].
  intros a. induction a as [|d a IH]; intros c b x y Hc Ha Hb; simpl in *.
  - inversion Ha; subst x. now rewrite (Ht c Hc), Hb.
  - destruct (table d) as [bd|]; [|discriminate].
    destruct (charmap_encode table a) as [x'|e] eqn:E; [|discriminate].
    inversion Ha; subst x.
    rewrite (IH c b x' y Hc eq_refl Hb). now rewrite <- app_assoc.
Qed.

Lemma latin_1_ascii_compatible : ascii_compatible latin_1.
Proof.
  apply charmap_ascii_compatible. intros c Hc.
  destruct (N.ltb_spec c 256); [reflexivity|lia].
Qed.

Lemma ascii_codec_ascii_compatible : ascii_compatible ascii_codec.
Proof.
  apply charmap_ascii_compatible. intros c Hc.
  destruct (N.ltb_spec c 128); [reflexivity|lia].
Qed.

Lemma utf_8_ascii_compatible : ascii_compatible utf_8.
Proof.
  apply charmap_ascii_compatible. intros c Hc. unfold utf_8_char.
  destruct (N.ltb_spec c 128); [reflexivity|lia].
Qed.

(** ** Concrete runs *)

Lemma text_escape_repeat_a n : text_escape (repeat 97 n) = repeat 97 n.
Proof.
  rewrite text_escape_flat_map.
  induction n as [|n IH]; simpl; [reflexivity|]. now rewrite IH.
Qed.

Lemma latin_1_repeat_a n : latin_1 (repeat 97 n) = Ok (repeat x61 n).
Proof.
  induction n as [|n IH]; [reflexivity|].
  simpl repeat. unfold latin_1 in *. simpl. now rewrite IH.
Qed.

Lemma text_record_encodes repr s line :
  latin_1 (text_escape s) = Ok line ->
  encodes_to repr Examples.get [Text] latin_1 [VStr s] (line ++ [x0a], []).
Proof.
  intros H lazy. unfold encode_record, Examples.get. simpl.
  rewrite H. now rewrite app_nil_r.
Qed.

Lemma long_record_encodes :
  encodes_to Examples.container_repr Examples.get [Text] latin_1
    [VStr Examples.long_text] (Examples.long_line ++ [x0a], []).
Proof.
  apply text_record_encodes. unfold Examples.long_text, Examples.long_line.
  rewrite text_escape_repeat_a. apply latin_1_repeat_a.
Qed.

Lemma len_long_line : len (Examples.long_line ++ [x0a]) = 65537.
Proof.
  unfold len, Examples.long_line. rewrite length_app, repeat_length.
  simpl List.length. lia.
Qed.

Lemma len_big_bytes : len Examples.big_bytes = 4097.
Proof. unfold len, Examples.big_bytes. rewrite repeat_length. lia. Qed.






(** The escaped form of [a], tab, [b] holds no tab. *)
Lemma text_escape_roundtrip_witness : ~ In 9 (text_escape [97; 9; 98]).
Proof.
  apply (proj1 (proj2 (proj2 (text_escape_roundtrip [97; 9; 98])))).
  reflexivity.
Defined.


(** C8 fails on the code: a nullable [ForeignKey] to a non-null [AutoField]
    is resolved through its target with the target's [null], so it gets the
    strict [Int], which raises on [None], and not [IntOrNone]. *)
Theorem nullable_relation_gets_strict_encoder (dumps : pyval -> res str) :
  null Examples.book_author = true /\
  is_relation Examples.book_author = true /\
  get_encoder (ENCODERS dumps) Examples.book_author = Ok Int /\
  get_encoder (ENCODERS dumps) Examples.book_author <> Ok IntOrNone /\
  is_TypeError (Int VNone []) /\
  IntOrNone VNone [] = Ok (VStr NULL, []).
Proof.
  repeat split.
  - intros H. inversion H as [E].
    assert (F : Int VNone [] = IntOrNone VNone []) by now rewrite E.
    discriminate.
  - eexists. reflexivity.
Qed.

(** C2 fails on the code: [encs] is a tuple, so the override of the encoder
    of [name] raises before the database is touched, while the same call
    without overrides returns the row count. *)
Theorem override_assigns_into_tuple
    (repr : pyval -> str) (dumps : pyval -> res str) :
  copy_update repr (ENCODERS dumps) Examples.authors [Examples.ann]
    [u "name"] (Some [(u "name", TextOrNone)]) None
  = ([], Raise (TypeError
                  (u "'tuple' object does not support item assignment"))) /\
  snd (copy_update repr (ENCODERS dumps) Examples.authors [Examples.ann]
         [u "name"] None None) = Ok (Some 1%Z).
Proof. split; reflexivity. Qed.

(** * Further properties of the module *)

(** ** The encoder pairs *)

Ltac settle_pair :=
  first [ left; eexists; split; reflexivity
        | right; split; eexists; reflexivity ].

(** X1. On [None] every strict encoder of a pair raises a [TypeError] and
    its nullable partner returns the NULL token, leaving the lazy list as it
    is. *)
Theorem none_strict_raises_nullable_null (p : encoder * encoder)
    (lazy : list lazy_entry) :
  In p scalar_pairs ->
  is_TypeError (fst p VNone lazy) /\ snd p VNone lazy = Ok (VStr NULL, lazy).
Proof.
  unfold scalar_pairs. simpl.
  intros H.
  repeat (destruct H as [<-|H]; [split; [eexists|]; reflexivity|]).
  destruct H.
Qed.

Lemma none_strict_raises_nullable_null_witness :
  is_TypeError (Text VNone []) /\ TextOrNone VNone [] = Ok (VStr NULL, []).
Proof.
  apply (none_strict_raises_nullable_null (Text, TextOrNone) []).
  unfold scalar_pairs. simpl. tauto.
Defined.

Lemma HStore_parts_raises_TypeError items e :
  HStore_parts items = Raise e -> exists msg, e = TypeError msg.
Proof.
  induction items as [|[k v] items IH]; simpl; [discriminate|].
  destruct k; try (intros [= <-]; eexists; reflexivity).
  destruct v; try (intros [= <-]; eexists; reflexivity);
    destruct (HStore_parts items); try discriminate;
    intros [= <-]; now apply IH.
Qed.

Lemma hstore_pair_agrees items lazy :
  (exists r, HStore (VDict items) lazy = Ok r /\
             HStoreOrNone (VDict items) lazy = Ok r) \/
  (is_TypeError (HStore (VDict items) lazy) /\
   is_TypeError (HStoreOrNone (VDict items) lazy)).
Proof.
  unfold HStoreOrNone, HStore.
  destruct (HStore_parts items) as [parts|e] eqn:E.
  - left. eexists. split; reflexivity.
  - right. destruct (HStore_parts_raises_TypeError _ _ E) as [msg ->].
    split; eexists; reflexivity.
Qed.

(** X2. On every value but [None] the two encoders of a pair do the same:
    both return the same result and lazy list, or both raise a
    [TypeError]. *)
Theorem nullable_agrees_with_strict (p : encoder * encoder) (v : pyval)
    (lazy : list lazy_entry) :
  In p scalar_pairs -> v <> VNone ->
  (exists r, fst p v lazy = Ok r /\ snd p v lazy = Ok r) \/
  (is_TypeError (fst p v lazy) /\ is_TypeError (snd p v lazy)).
Proof.
  unfold scalar_pairs. simpl. intros H Hv.
  repeat (destruct H as [<-|H];
          [destruct v; try congruence;
           first [ solve [simpl; settle_pair]
                 | solve [simpl;
                          repeat match goal with
                                 | |- context [if ?c then _ else _] =>
                                     destruct c
                                 end; settle_pair]
                 | solve [apply hstore_pair_agrees] ]|]).
  destruct H.
Qed.

Lemma nullable_agrees_with_strict_witness :
  (exists r, Int (VInt 5) [] = Ok r /\ IntOrNone (VInt 5) [] = Ok r) \/
  (is_TypeError (Int (VInt 5) []) /\ is_TypeError (IntOrNone (VInt 5) [])).
Proof.
  apply (nullable_agrees_with_strict (Int, IntOrNone) (VInt 5) []).
  - unfold scalar_pairs. simpl. tauto.
  - discriminate.
Defined.

(** X3. The JSON pair differs on [None] only: [JsonOrNone] returns the NULL
    token without calling [dumps], [Json] escapes what [dumps] gives for
    it; on every other value the two agree; an error of [dumps] is passed
    on; and a result of [Json] is a string without raw control characters
    beside an unchanged lazy list. *)
Theorem json_pair_differs_on_none_only (dumps : pyval -> res str) :
  (forall lazy, JsonOrNone dumps VNone lazy = Ok (VStr NULL, lazy)) /\
  (forall lazy s,
      dumps VNone = Ok s ->
      Json dumps VNone lazy = Ok (VStr (text_escape s), lazy)) /\
  (forall v lazy, v <> VNone -> JsonOrNone dumps v lazy = Json dumps v lazy) /\
  (forall v lazy e, dumps v = Raise e -> Json dumps v lazy = Raise e) /\
  (forall v lazy r lazy',
      Json dumps v lazy = Ok (r, lazy') ->
      lazy' = lazy /\
      exists s, r = VStr s /\ forall c, is_control c = true -> ~ In c s).
Proof.
  split; [reflexivity|]. split; [|split; [|split]].
  - intros lazy s H. unfold Json. now rewrite H.
  - intros v lazy Hv. destruct v; try congruence; reflexivity.
  - intros v lazy e H. unfold Json. now rewrite H.
  - intros v lazy r lazy' H. unfold Json in H.
    destruct (dumps v) as [s|e]; [|discriminate].
    inversion H; subst. split; [reflexivity|].
    exists (text_escape s). split; [reflexivity|].
    intros c Hc. rewrite text_escape_flat_map. now apply escape_no_control.
Qed.

Lemma json_pair_differs_on_none_only_witness :
  Json dumps_null VNone [] = Ok (VStr (text_escape (u "null")), []) /\
  JsonOrNone dumps_null (VInt 1) [] = Json dumps_null (VInt 1) [].
Proof.
  destruct (json_pair_differs_on_none_only dumps_null)
    as (_ & H1 & H2 & _).
  split.
  - apply H1. reflexivity.
  - apply H2. discriminate.
Defined.

(** X4. [datetime] derives from [date]: the date encoders and the date range
    encoders pass datetime values along, while the datetime encoders raise
    on a plain date; and an int range takes [bool] bounds. *)
Theorem datetime_passes_date_encoders (t t' : str) (b : bool) (z : Z)
    (lazy : list lazy_entry) :
  Date (VDatetime t) lazy = Ok (VDatetime t, lazy) /\
  DateOrNone (VDatetime t) lazy = Ok (VDatetime t, lazy) /\
  is_TypeError (Datetime (VDate t) lazy) /\
  is_TypeError (DatetimeOrNone (VDate t) lazy) /\
  fst (range_factory c_date) (VRange (VDatetime t) (VDate t) t') lazy
  = Ok (VRange (VDatetime t) (VDate t) t', lazy) /\
  is_TypeError
    (fst (range_factory c_datetime) (VRange (VDatetime t) (VDate t) t') lazy) /\
  fst (range_factory c_int) (VRange (VBool b) (VInt z) t') lazy
  = Ok (VRange (VBool b) (VInt z) t', lazy).
Proof.
  repeat split; try reflexivity; eexists; reflexivity.
Qed.

(** X5. A range encoder passes a range along exactly when both its bounds
    are instances of the element type, and raises a [TypeError] otherwise
    and on every value that is no range; so for the registered element
    types a range with an open bound ([None]) is refused by the strict and
    by the nullable encoder. *)
Theorem range_needs_both_bounds (_type : pyclass) :
  (forall lower upper t lazy,
      let v := VRange lower upper t in
      if isinstance lower _type && isinstance upper _type
      then fst (range_factory _type) v lazy = Ok (v, lazy) /\
           snd (range_factory _type) v lazy = Ok (v, lazy)
      else is_TypeError (fst (range_factory _type) v lazy) /\
           is_TypeError (snd (range_factory _type) v lazy)) /\
  (forall v lazy,
      (forall lower upper t, v <> VRange lower upper t) -> v <> VNone ->
      is_TypeError (fst (range_factory _type) v lazy) /\
      is_TypeError (snd (range_factory _type) v lazy)) /\
  (isinstance VNone _type = false ->
   forall bound t lazy,
     is_TypeError (fst (range_factory _type) (VRange VNone bound t) lazy) /\
     is_TypeError (snd (range_factory _type) (VRange VNone bound t) lazy) /\
     is_TypeError (fst (range_factory _type) (VRange bound VNone t) lazy) /\
     is_TypeError (snd (range_factory _type) (VRange bound VNone t) lazy)).
Proof.
  split; [|split].
  - intros lower upper t lazy. cbv zeta. simpl.
    rewrite andb_true_r.
    destruct (isinstance lower _type && isinstance upper _type);
      split; try reflexivity; eexists; reflexivity.
  - intros v lazy Hr Hn.
    destruct v; try congruence; split; eexists; reflexivity.
  - intros Hnone bound t lazy. simpl. rewrite Hnone, andb_true_r. simpl.
    rewrite andb_false_r.
    repeat split; eexists; reflexivity.
Qed.

Lemma range_needs_both_bounds_witness :
  is_TypeError (fst (range_factory c_int) (VRange VNone (VInt 5) []) []) /\
  is_TypeError (snd (range_factory c_int) (VStr []) []).
Proof.
  destruct (range_needs_both_bounds c_int) as (_ & H2 & H3).
  split.
  - apply (H3 eq_refl (VInt 5) [] []).
  - apply (H2 (VStr []) []); discriminate.
Defined.

(** ** Text, nested text and HStore *)

Ltac split_char c :=
  repeat match goal with
         | |- context [c =? ?k] =>
             destruct (N.eqb_spec c k); subst; simpl; try congruence
         end.

Ltac use_neqs :=
  repeat match goal with
         | H : ?a <> ?b |- _ => apply N.eqb_neq in H; rewrite ?H; clear H
         end.

Lemma text_escape_not_null s : text_escape s <> NULL.
Proof.
  rewrite text_escape_flat_map. unfold NULL, BACKSLASH.
  destruct s as [|c s]; [discriminate|]. simpl.
  unfold escape_char. split_char c; discriminate || (intros H; inversion H; congruence).
Qed.

Lemma count_tab_escape s : count_occ N.eq_dec (text_escape s) 9 = 0%nat.
Proof.
  apply count_occ_not_In. rewrite text_escape_flat_map.
  now apply escape_no_control.
Qed.

Lemma count_tab_tail ss :
  count_occ N.eq_dec
    (flat_map (fun g => [9] ++ g) (map text_escape ss)) 9
  = List.length ss.
Proof.
  induction ss as [|s ss IH]; [reflexivity|].
  change (flat_map (fun g => [9] ++ g) (map text_escape (s :: ss)))
    with (([9] ++ text_escape s)
            ++ flat_map (fun g => [9] ++ g) (map text_escape ss)).
  rewrite !count_occ_app, count_tab_escape, IH. reflexivity.
Qed.

Lemma in_join c sep ps :
  In c (join sep ps) -> In c sep \/ exists p, In p ps /\ In c p.
Proof.
  destruct ps as [|p ps]; [intros []|].
  rewrite join_cons. intros H. apply in_app_or in H.
  destruct H as [H|H]; [right; exists p; split; [now left|exact H]|].
  apply in_flat_map in H. destruct H as (g & Hg & H).
  apply in_app_or in H. destruct H as [H|H]; [now left|].
  right. exists g. split; [now right|exact H].
Qed.


Lemma text_escape_nested_flat_map s :
  text_escape_nested s = flat_map nested_escape_char s.
Proof.
  unfold text_escape_nested. rewrite !replace_single, !flat_map_compose.
  apply flat_map_ext. intros c. unfold nested_escape_char, BACKSLASH.
  split_char c; try reflexivity; try lia.
Qed.

Lemma quote_nested_flat_map s :
  quote (text_escape_nested s) = 34 :: flat_map nested_char s ++ [34].
Proof.
  unfold quote. rewrite text_escape_nested_flat_map, replace_single,
    flat_map_compose.
  simpl. f_equal. f_equal. apply flat_map_ext. intros c.
  unfold nested_char, nested_escape_char, DQUOTE, BACKSLASH.
  split_char c; try reflexivity; try lia.
Qed.

Lemma nested_body_step c rest :
  nested_body (nested_char c ++ rest) = option_map (cons c) (nested_body rest).
Proof.
  unfold nested_char, nested_escape_char.
  split_char c; try (destruct (nested_body rest); reflexivity).
  unfold is_control. use_neqs. reflexivity.
Qed.

Lemma nested_body_flat_map s :
  nested_body (flat_map nested_char s ++ [34]) = Some s.
Proof.
  induction s as [|c s IH]; [reflexivity|].
  simpl. rewrite <- app_assoc, nested_body_step, IH. reflexivity.
Qed.

Lemma nested_char_no_control c x :
  is_control x = true -> ~ In x (nested_char c).
Proof.
  intros Hx. unfold nested_char, nested_escape_char, is_control in *.
  split_char c; intros H;
    repeat (destruct H as [H|H]; [subst x; try discriminate|]);
    try contradiction.
  repeat match goal with
         | Hn : c <> _ |- _ =>
             apply N.eqb_neq in Hn; rewrite ?Hn in Hx; clear Hn
         end.
  discriminate.
Qed.

Lemma quote_nested_no_control s c :
  is_control c = true -> ~ In c (quote (text_escape_nested s)).
Proof.
  intros Hc. rewrite quote_nested_flat_map. intros H.
  destruct H as [H|H]; [subst c; discriminate|].
  apply in_app_or in H. destruct H as [H|[H|[]]];
    [|subst c; discriminate].
  apply in_flat_map in H. destruct H as (x & _ & H).
  now apply (nested_char_no_control x c Hc).
Qed.

(** X7. The quoted nested form can be read back: un-quoting
    [quote(text_escape_nested(s))] gives [s], so two different strings never
    get the same nested form; the form starts and ends with a double quote
    and holds no raw control character. *)
Theorem nested_quote_roundtrip (s : str) :
  nested_unquote (quote (text_escape_nested s)) = Some s /\
  (forall t,
      quote (text_escape_nested s) = quote (text_escape_nested t) -> s = t) /\
  (exists body, quote (text_escape_nested s) = [DQUOTE] ++ body ++ [DQUOTE]) /\
  (forall c, is_control c = true -> ~ In c (quote (text_escape_nested s))).
Proof.
  assert (R : forall x, nested_unquote (quote (text_escape_nested x)) = Some x).
  { intros x. rewrite quote_nested_flat_map. simpl.
    apply nested_body_flat_map. }
  split; [apply R|]. split; [|split].
  - intros t E. pose proof (R s) as Hs. rewrite E, R in Hs. congruence.
  - eexists. reflexivity.
  - intros c Hc. now apply quote_nested_no_control.
Qed.

Lemma nested_quote_roundtrip_witness :
  ~ In 9 (quote (text_escape_nested [97; 9; 34])).
Proof.
  apply (proj2 (proj2 (proj2 (nested_quote_roundtrip [97; 9; 34])))).
  reflexivity.
Defined.

(** X8. For a dict with [str] keys and [str] or [None] values [HStore]
    leaves the lazy list alone and returns text without raw control
    characters; the empty dict gives the empty text. *)
Theorem HStore_text_is_clean (kvs : list (str * option str))
    (lazy : list lazy_entry) :
  exists s,
    HStore (VDict (hstore_items kvs)) lazy = Ok (VStr s, lazy) /\
    (forall c, is_control c = true -> ~ In c s) /\
    (kvs = [] -> s = []).
Proof.
  exists (join (u ",") (map hstore_pair kvs)). split; [|split].
  - unfold HStore. now rewrite HStore_parts_conforming.
  - intros c Hc H. apply in_join in H.
    destruct H as [[H|[]]|(p & Hp & H)]; [subst c; discriminate|].
    apply in_map_iff in Hp. destruct Hp as ([k v] & <- & _).
    unfold hstore_pair in H. cbn [fst snd] in H.
    apply in_app_or in H. destruct H as [H|H].
    { now apply (quote_nested_no_control k c Hc). }
    apply in_app_or in H. destruct H as [H|H].
    { repeat (destruct H as [H|H]; [subst c; discriminate|]). destruct H. }
    destruct v as [v|].
    + now apply (quote_nested_no_control v c Hc).
    + repeat (destruct H as [H|H]; [subst c; discriminate|]). destruct H.
  - intros ->. reflexivity.
Qed.

(** ** Hex text and the writers of the lazy mechanism *)

Lemma unhex_step b rest :
  unhex (hex_of_byte b ++ rest) = option_map (cons b) (unhex rest).
Proof.
  destruct b; simpl; destruct (unhex rest); reflexivity.
Qed.

Lemma unhex_bytes_hex v : unhex (bytes_hex v) = Some v.
Proof.
  induction v as [|b v IH]; [reflexivity|].
  change (bytes_hex (b :: v)) with (hex_of_byte b ++ bytes_hex v).
  now rewrite unhex_step, IH.
Qed.

Lemma len_bytes_hex v : len (bytes_hex v) = 2 * len v.
Proof.
  induction v as [|b v IH]; [reflexivity|].
  change (bytes_hex (b :: v)) with (hex_of_byte b ++ bytes_hex v).
  rewrite len_app, IH, len_cons. change (len (hex_of_byte b)) with 2. lia.
Qed.

Lemma len_b2a_hex v : len (b2a_hex v) = 2 * len v.
Proof.
  rewrite b2a_hex_map. unfold len at 1. rewrite length_map.
  apply len_bytes_hex.
Qed.



Lemma len_slice_le {A} (v : list A) (lo hi : N) : len (slice v lo hi) <= hi - lo.
Proof.
  unfold len, slice. pose proof (firstn_le_length (N.to_nat (hi - lo))
                                   (skipn (N.to_nat lo) v)).
  lia.
Qed.

Lemma _lazy_binary_while_bounded v n pos :
  Forall (fun w => len w <= 131072) (_lazy_binary_while v n pos).
Proof.
  funelim (_lazy_binary_while v n pos); [|constructor].
  constructor; [|exact H0].
  rewrite len_b2a_hex.
  pose proof (len_slice_le v byte_pos (byte_pos + 65536)). lia.
Qed.

Lemma _lazy_binary_while_nonempty v n pos :
  pos < n -> _lazy_binary_while v n pos <> [].
Proof.
  funelim (_lazy_binary_while v n pos); intros Hlt.
  - discriminate.
  - pose proof (proj1 (N.ltb_ge _ _) H). lia.
Qed.


(** X11. [write_lazy] returns exactly when the buffer holds at least as many
    placeholder bytes as the stack has entries; otherwise the search for the
    next placeholder raises a [ValueError]. With an empty stack the buffer
    is written unchanged in one piece. *)
Theorem write_lazy_needs_placeholders (data : bytes) (stack : list lazy_entry) :
  (snd (write_lazy data stack) = Ok tt
   <-> (List.length stack <= placeholders data)%nat) /\
  (snd (write_lazy data stack) <> Ok tt ->
   exists msg, snd (write_lazy data stack) = Raise (ValueError msg)) /\
  write_lazy data [] = ([data], Ok tt).
Proof.
  assert (D : (List.length stack <= placeholders data)%nat \/
              (placeholders data < List.length stack)%nat) by lia.
  split; [|split; [|reflexivity]].
  - split.
    + intros H. destruct D as [D|D]; [exact D|].
      destruct (write_lazy_from_raises stack data 0 D) as (ws & msg & E).
      unfold write_lazy in H. rewrite E in H. discriminate.
    + intros H. destruct (write_lazy_resolve data stack H) as (ws & E & _).
      now rewrite E.
  - intros H. destruct D as [D|D].
    + destruct (write_lazy_resolve data stack D) as (ws & E & _).
      rewrite E in H. now contradiction H.
    + destruct (write_lazy_from_raises stack data 0 D) as (ws & msg & E).
      exists msg. unfold write_lazy. now rewrite E.
Qed.

Lemma write_lazy_needs_placeholders_witness :
  exists msg,
    snd (write_lazy [x61] [(_lazy_binary, [x41])]) = Raise (ValueError msg).
Proof.
  apply (proj1 (proj2 (write_lazy_needs_placeholders
                         [x61] [(_lazy_binary, [x41])]))).
  discriminate.
Defined.

Lemma placeholders_resolve stack : forall data,
  (List.length stack <= placeholders data)%nat ->
  Forall (fun e => placeholders (concat (fst e (snd e))) = 0%nat) stack ->
  placeholders (resolve data stack)
  = (placeholders data - List.length stack)%nat.
Proof.
  induction stack as [|[w b] stack IH]; intros data Hc Hz; simpl.
  - lia.
  - inversion Hz as [|? ? Hwb Hrest]; subst. simpl in Hwb.
    destruct (split_placeholder data) as [[pre post]|] eqn:E.
    + pose proof (split_placeholder_some _ _ _ E) as (_ & Hn & _).
      pose proof (placeholders_split _ _ _ E) as Hs.
      rewrite !placeholders_app, (placeholders_notin _ Hn), Hwb.
      simpl in Hc. rewrite IH by (try exact Hrest; lia). lia.
    + apply split_placeholder_none in E. destruct E as [E _].
      simpl in Hc. lia.
Qed.

(** X12. A byte 0 that is no placeholder is never swallowed: when the
    entries are those of binary values, what [write_lazy] writes holds
    exactly as many bytes 0 as the buffer held beyond the entries, so the
    sink still sees every NUL that came from a value. *)
Theorem write_lazy_keeps_surplus_zero_bytes (data : bytes) (values : list bytes) :
  let stack := map (fun b => (_lazy_binary, b)) values in
  (List.length values <= placeholders data)%nat ->
  snd (write_lazy data stack) = Ok tt /\
  placeholders (concat (fst (write_lazy data stack)))
  = (placeholders data - List.length values)%nat.
Proof.
  cbv zeta. intros H.
  destruct (write_lazy_resolve data (map (fun b => (_lazy_binary, b)) values))
    as (ws & E & Hc).
  { now rewrite length_map. }
  rewrite E. simpl. split; [reflexivity|].
  rewrite Hc, placeholders_resolve.
  - now rewrite length_map.
  - now rewrite length_map.
  - apply Forall_forall. intros e He. apply in_map_iff in He.
    destruct He as (b & <- & _). simpl.
    rewrite _lazy_binary_concat. apply placeholders_b2a_hex.
Qed.

Lemma write_lazy_keeps_surplus_zero_bytes_witness :
  placeholders
    (concat (fst (write_lazy [x00; x09; x00]
                    (map (fun b => (_lazy_binary, b)) [[x41]]))))
  = (placeholders [x00; x09; x00] - List.length [[x41]])%nat.
Proof.
  apply (write_lazy_keeps_surplus_zero_bytes [x00; x09; x00] [[x41]]).
  vm_compute. lia.
Defined.

Lemma len_full_slice {A} (m : list A) (pos : N) :
  65535 < len m - pos -> len (slice m pos (pos + 65536)) = 65536.
Proof.
  unfold len, slice. intros H.
  rewrite length_firstn, length_skipn. lia.
Qed.

Lemma write_chunks_full m n pos :
  n = len m ->
  Forall (fun w => len w = 65536) (fst (write_chunks m n pos)).
Proof.
  funelim (write_chunks m n pos); intros Hn; [|constructor].
  pose proof (proj1 (N.ltb_lt _ _) H) as Hlt.
  destruct (write_chunks m length_m (pos + 65536)) as [ws pos'] eqn:E.
  simpl in *. constructor; [|now apply H0].
  subst length_m. now apply len_full_slice.
Qed.

Lemma write_chunks_small m n pos :
  n - pos <= 65535 -> write_chunks m n pos = ([], pos).
Proof.
  funelim (write_chunks m n pos); intros Hs.
  - pose proof (proj1 (N.ltb_lt _ _) H). lia.
  - reflexivity.
Qed.

(** X13. The chunk loop of [copy_from] writes only full chunks of 65536
    bytes, in order, and carries forward the rest of at most 65535 bytes:
    nothing is lost, nothing is written twice, and a buffer of at most 65535
    bytes is not written at all. *)
Theorem chunk_loop_writes_full_chunks (m : bytes) :
  let ws := fst (write_chunks m (len m) 0) in
  let rest := slice_from m (snd (write_chunks m (len m) 0)) in
  Forall (fun w => len w = 65536) ws /\
  concat ws ++ rest = m /\
  len rest <= 65535 /\
  (len m <= 65535 -> ws = [] /\ rest = m).
Proof.
  cbv zeta.
  pose proof (write_chunks_spec m (len m) 0 eq_refl (N.le_0_l _))
    as (Hc & Hp & Hr).
  change (slice_from m 0) with m in Hc.
  split; [now apply write_chunks_full|]. split; [exact Hc|]. split.
  - unfold len, slice_from in *. rewrite length_skipn. lia.
  - intros Hs. rewrite write_chunks_small by lia. now split.
Qed.

Lemma chunk_loop_writes_full_chunks_witness :
  fst (write_chunks [x61; x0a] (len [x61; x0a]) 0) = [] /\
  slice_from [x61; x0a] (snd (write_chunks [x61; x0a] (len [x61; x0a]) 0))
  = [x61; x0a].
Proof.
  apply (proj2 (proj2 (proj2 (chunk_loop_writes_full_chunks [x61; x0a])))).
  vm_compute. discriminate.
Defined.

(** ** More on the streaming writer *)

Section FurtherCopyFrom.

Variable py_repr : pyval -> str.
Context {O : Type}.
Variables (tname : str) (columns : list str) (get : O -> list pyval)
          (encs : list encoder) (encoding : codec).

Local Abbreviation run := (copy_from py_repr tname columns get encs encoding).
Local Abbreviation enc_to := (encodes_to py_repr get encs encoding).
Local Abbreviation raises o e :=
  (forall lazy, encode_record py_repr encs encoding (get o) lazy = Raise e).

Lemma filter_spawn_writes chunks tail :
  filter is_spawn (map EPipeWrite chunks ++ tail) = filter is_spawn tail.
Proof. induction chunks; simpl; auto. Qed.

Lemma filter_memory_writes chunks tail :
  filter is_memory_copy (map EPipeWrite chunks ++ tail)
  = filter is_memory_copy tail.
Proof. induction chunks; simpl; auto. Qed.

(** X14. Whatever the records and the encoders do, a call of [copy_from]
    creates the pipe and the helper thread at most once, and then as its
    first two events; it calls the sink in memory at most once, and never in
    a run that created the thread. *)
Theorem at_most_one_helper_thread (data : list O) :
  let tr := fst (run data) in
  (filter is_spawn tr = [] \/
   (filter is_spawn tr = [EPipe; EThreadStart tname columns] /\
    exists rest, tr = EPipe :: EThreadStart tname columns :: rest)) /\
  (List.length (filter is_memory_copy tr) <= 1)%nat /\
  existsb is_memory_copy tr && existsb is_spawn tr = false.
Proof.
  cbv zeta.
  destruct (copy_from_cases py_repr tname columns get encs encoding data)
    as [(chunks & E)|[(chunks & e & E)|[(content & E)|[E|(e & E)]]]];
    rewrite E; simpl.
  - rewrite filter_spawn_writes, filter_memory_writes. simpl.
    split; [right; split; [reflexivity|eexists; reflexivity]|].
    split; [lia|]. now rewrite existsb_app, writes_no_memory_copy.
  - rewrite <- (app_nil_r (map EPipeWrite chunks)).
    rewrite filter_spawn_writes, filter_memory_writes. simpl.
    split; [right; split; [reflexivity|eexists; reflexivity]|].
    split; [lia|]. now rewrite app_nil_r, writes_no_memory_copy.
  - split; [now left|]. split; [lia|reflexivity].
  - split; [now left|]. split; [lia|reflexivity].
  - split; [now left|]. split; [lia|reflexivity].
Qed.

(** X15. An error of an encoder or of the codec ends [copy_from] at once and
    there is no cleanup: while the buffer never passed 65535 bytes nothing
    has reached the sink; and once the pipe and the thread exist, the run
    ends after the writes made so far, the write end is not closed and the
    thread is not joined. *)
Theorem error_aborts_without_teardown :
  (forall d1 rows1 bad d2 e,
      Forall2 enc_to d1 rows1 ->
      len (concat (map fst rows1)) <= 65535 ->
      raises bad e ->
      run (d1 ++ bad :: d2) = ([], Raise e)) /\
  (forall d1 rows1 o rn d2 rows2 bad d3 e,
      Forall2 enc_to d1 rows1 -> enc_to o rn -> Forall2 enc_to d2 rows2 ->
      Forall covered (rows1 ++ rn :: rows2) ->
      len (concat (map fst rows1)) <= 65535 ->
      65536 <= len (concat (map fst rows1) ++ fst rn) ->
      raises bad e ->
      exists chunks,
        run (d1 ++ o :: d2 ++ bad :: d3)
        = (EPipe :: EThreadStart tname columns :: map EPipeWrite chunks,
           Raise e) /\
        existsb is_teardown (fst (run (d1 ++ o :: d2 ++ bad :: d3))) = false).
Proof.
  split.
  - intros d1 rows1 bad d2 e H1 Hl Hb.
    rewrite copy_from_eq, copy_from_loop_app.
    rewrite (copy_from_loop_below py_repr tname columns get encs encoding
               d1 rows1 (mk_cf false [] []) H1 eq_refl Hl).
    rewrite copy_from_loop_cons.
    now rewrite (copy_from_record_raise py_repr tname columns get encs
                   encoding _ bad e (Hb _)).
  - intros d1 rows1 o rn d2 rows2 bad d3 e H1 Ho H2 Hc Hl Hbr Hb.
    apply Forall_app in Hc. destruct Hc as [Hc1 Hc2].
    inversion Hc2 as [|? ? Hcrn Hc3]; subst.
    pose proof (copy_from_loop_below py_repr tname columns get encs encoding
                  d1 rows1 (mk_cf false [] []) H1 eq_refl Hl) as L1.
    simpl in L1.
    set (st1 := mk_cf false (concat (map fst rows1))
                  (concat (map snd rows1))) in *.
    destruct (copy_from_record_breach py_repr tname columns get encs encoding
                st1 o rn Ho Hcrn eq_refl (covered_concat rows1 Hc1) Hbr)
      as (chunks & st2 & Hr & Ht2 & Hcov2).
    destruct (copy_from_loop_covered py_repr tname columns get encs encoding
                d2 rows2 st2 H2 Hc3 Hcov2) as (st3 & Hs3 & Hcov3).
    destruct (copy_from_loop_shape py_repr tname columns get encs encoding
                d2 st2) as (b & (ch2 & Htr & Hb1 & _) & Hb2).
    rewrite Ht2 in *. specialize (Hb1 eq_refl). subst b. simpl in Htr.
    assert (E : run (d1 ++ o :: d2 ++ bad :: d3)
                = (EPipe :: EThreadStart tname columns
                     :: map EPipeWrite (chunks ++ ch2), Raise e)).
    { rewrite copy_from_eq, copy_from_loop_app, L1, copy_from_loop_cons, Hr.
      rewrite copy_from_loop_app.
      destruct (copy_from_loop py_repr tname columns get encs encoding d2 st2)
        as [t3 [st3'|e3]]; simpl in Hs3, Htr; [|discriminate].
      inversion Hs3; subst st3' t3.
      rewrite copy_from_loop_cons.
      rewrite (copy_from_record_raise py_repr tname columns get encs
                 encoding _ bad e (Hb _)).
      simpl. now rewrite map_app, !app_nil_r. }
    exists (chunks ++ ch2). split; [exact E|].
    rewrite E. simpl. apply writes_no_teardown.
Qed.

(** X16. Handing a batch over in one call or in two gives the sink the same
    bytes: when the records hold the byte 0 only as placeholder, what
    [copy_from] delivers for [d1 ++ d2] is what it delivers for [d1]
    followed by what it delivers for [d2], whatever the sizes. *)
Theorem delivery_composes (d1 d2 : list O)
    (rows1 rows2 : list (bytes * list lazy_entry)) :
  Forall2 enc_to d1 rows1 -> Forall2 enc_to d2 rows2 ->
  Forall aligned (rows1 ++ rows2) ->
  snd (run (d1 ++ d2)) = Ok tt /\
  delivered (fst (run (d1 ++ d2)))
  = delivered (fst (run d1)) ++ delivered (fst (run d2)).
Proof.
  intros H1 H2 Ha.
  pose proof (Forall2_app H1 H2) as H12.
  apply Forall_app in Ha as Ha'. destruct Ha' as [Ha1 Ha2].
  destruct (copy_from_delivered py_repr tname columns get encs encoding
              _ _ H12 Ha) as [Hs Hd].
  destruct (copy_from_delivered py_repr tname columns get encs encoding
              _ _ H1 Ha1) as [_ Hd1].
  destruct (copy_from_delivered py_repr tname columns get encs encoding
              _ _ H2 Ha2) as [_ Hd2].
  split; [exact Hs|].
  now rewrite Hd, Hd1, Hd2, map_app, concat_app.
Qed.

End FurtherCopyFrom.

Lemma error_aborts_without_teardown_witness :
  (exists e,
     Examples.run_text ([[VStr (u "ab")]] ++ [VInt 5] :: []) = ([], Raise e)) /\
  (exists e chunks,
     Examples.run_text ([] ++ [VStr Examples.long_text] :: [] ++ [VInt 5] :: [])
     = (EPipe :: EThreadStart Examples.tname [u "name"]
          :: map EPipeWrite chunks, Raise e)).
Proof.
  destruct (error_aborts_without_teardown Examples.container_repr
              Examples.tname [u "name"] Examples.get [Text] latin_1)
    as [Ha Hb].
  split.
  - eexists.
    apply (Ha [[VStr (u "ab")]] [([x61; x62; x0a], @nil lazy_entry)]).
    + constructor; [|constructor].
      apply (text_record_encodes _ (u "ab") [x61; x62]). reflexivity.
    + unfold len; simpl; lia.
    + intros lazy. reflexivity.
  - eexists.
    edestruct (Hb [] [] [VStr Examples.long_text]
                 (Examples.long_line ++ [x0a], @nil lazy_entry) [] []
                 [VInt 5] []) as (chunks & E & _).
    + constructor.
    + exact long_record_encodes.
    + constructor.
    + constructor; [|constructor]. apply Nat.le_0_l.
    + unfold len; simpl; lia.
    + change (65536 <= len (Examples.long_line ++ [x0a])).
      rewrite len_long_line. lia.
    + intros lazy. reflexivity.
    + exists chunks. exact E.
Defined.

Lemma delivery_composes_witness :
  delivered (fst (Examples.run_text ([[VStr (u "ab")]] ++ [[VStr (u "c")]])))
  = delivered (fst (Examples.run_text [[VStr (u "ab")]]))
      ++ delivered (fst (Examples.run_text [[VStr (u "c")]])).
Proof.
  apply (delivery_composes Examples.container_repr Examples.tname
           [u "name"] Examples.get [Text] latin_1
           [[VStr (u "ab")]] [[VStr (u "c")]]
           [([x61; x62; x0a], @nil lazy_entry)]
           [([x63; x0a], @nil lazy_entry)]).
  - constructor; [|constructor].
    apply (text_record_encodes _ (u "ab") [x61; x62]). reflexivity.
  - constructor; [|constructor].
    apply (text_record_encodes _ (u "c") [x63]). reflexivity.
  - constructor; [reflexivity|]. constructor; [reflexivity|constructor].
Defined.

(** ** The encoder registry *)

Lemma dict_get_set {V} (d : list (string * V)) k v k' :
  dict_get (dict_set d k v) k'
  = if String.eqb k k' then Some v else dict_get d k'.
Proof.
  induction d as [|[k0 v0] d IH]; simpl.
  - reflexivity.
  - destruct (String.eqb k0 k) eqn:E; simpl.
    + apply String.eqb_eq in E. subst k0.
      now destruct (String.eqb k k').
    + destruct (String.eqb k0 k') eqn:E'.
      * apply String.eqb_eq in E'. subst k0.
        rewrite String.eqb_sym in E. now rewrite E.
      * exact IH.
Qed.

Lemma get_encoder_final reg : forall f,
  get_encoder reg f
  = get_encoder_mro reg (mro (final_target f)) (null (final_target f))
      (label (final_target f)).
Proof.
  fix IH 1. intros [l a c d m n [t|]]; simpl.
  - apply IH.
  - reflexivity.
Qed.

Lemma get_encoder_mro_other reg cls pair classes f_null f_label :
  ~ In cls classes ->
  get_encoder_mro (dict_set reg cls pair) classes f_null f_label
  = get_encoder_mro reg classes f_null f_label.
Proof.
  induction classes as [|c classes IH]; simpl; [reflexivity|].
  intros Hn. rewrite dict_get_set.
  destruct (String.eqb cls c) eqn:E.
  - apply String.eqb_eq in E. subst c. exfalso. apply Hn. now left.
  - rewrite IH by (intros H; apply Hn; now right). reflexivity.
Qed.

(** X17. After [register_fieldclass(cls, enc, enc_none)] a field, or the
    field its relations end in, whose most derived registered class is [cls]
    gets [enc] when it is not nullable and [enc_none] when it is, and [enc]
    in both cases when no [enc_none] was given; a field that does not inherit
    from [cls] resolves as before the registration. *)
Theorem register_fieldclass_takes_effect reg cls enc enc_none f :
  let reg' := register_fieldclass reg cls enc enc_none in
  let t := final_target f in
  (forall before after,
      mro t = before ++ cls :: after ->
      Forall (fun c => dict_get reg c = None /\ c <> cls) before ->
      get_encoder reg' f
      = Ok (if null t
            then match enc_none with Some e => e | None => enc end
            else enc)) /\
  (~ In cls (mro t) -> get_encoder reg' f = get_encoder reg f).
Proof.
  cbv zeta. split.
  - intros before after Hm Hb.
    rewrite get_encoder_final, Hm. unfold register_fieldclass.
    rewrite (get_encoder_mro_first _ before cls after
               (enc, match enc_none with Some e => e | None => enc end)).
    + reflexivity.
    + eapply Forall_impl; [|exact Hb]. intros c [Hc Hne].
      rewrite dict_get_set.
      destruct (String.eqb cls c) eqn:E; [|exact Hc].
      apply String.eqb_eq in E. now subst c.
    + rewrite dict_get_set. now rewrite String.eqb_refl.
  - intros Hn. rewrite !get_encoder_final. unfold register_fieldclass.
    now apply get_encoder_mro_other.
Qed.

Lemma register_fieldclass_takes_effect_witness :
  get_encoder
    (register_fieldclass (ENCODERS Examples.no_dumps) "ForeignObject"
       Text None)
    Examples.author_name
  = get_encoder (ENCODERS Examples.no_dumps) Examples.author_name /\
  get_encoder
    (register_fieldclass [] "AutoFieldMixin" Text (Some TextOrNone))
    Examples.book_author
  = Ok Text.
Proof.
  split.
  - apply (proj2 (register_fieldclass_takes_effect
                    (ENCODERS Examples.no_dumps) "ForeignObject"%string
                    Text None Examples.author_name)).
    simpl. intros [H|[H|[H|[H|[]]]]]; discriminate H.
  - apply (proj1 (register_fieldclass_takes_effect
                    [] "AutoFieldMixin"%string Text (Some TextOrNone)
                    Examples.book_author) ["AutoField"%string]
             ["IntegerField"; "Field"; "RegisterLookupMixin";
              "object"]%string).
    + reflexivity.
    + constructor; [|constructor]. split; [reflexivity|discriminate].
Defined.

(** ** The column definitions of the temporary table *)

Lemma replace_from_skip old new k : forall s,
  replace_from old new k s = replace_from old new 0 (skipn k s).
Proof.
  induction k as [|k IH]; intros s; [reflexivity|].
  destruct s as [|c s]; [reflexivity|]. simpl. apply IH.
Qed.

Lemma starts_with_app_false p a b :
  starts_with p a = false -> (List.length p <= List.length a)%nat ->
  starts_with p (a ++ b) = false.
Proof.
  revert a. induction p as [|x p IH]; intros a H Hl; [discriminate|].
  destruct a as [|y a]; [simpl in Hl; lia|].
  simpl in *. destruct (x =? y); [|reflexivity].
  simpl in *. apply IH; [exact H|lia].
Qed.

(** A proper suffix of the old text that the replaced text begins with was
    already at the head of the input. *)
Lemma replace_from_prefix old new suf : forall t,
  (forall k, (k < List.length suf)%nat ->
             starts_with (skipn k suf) new = false) ->
  (List.length suf <= List.length new)%nat ->
  starts_with suf (replace_from old new 0 t) = true ->
  starts_with suf t = true.
Proof.
  induction suf as [|x suf IH]; intros t Hk Hl H; [reflexivity|].
  destruct t as [|c t]; [discriminate H|].
  simpl replace_from in H.
  destruct (starts_with old (c :: t)).
  - rewrite starts_with_app_false in H; [discriminate| |exact Hl].
    apply (Hk 0%nat). simpl. lia.
  - simpl in H |- *. destruct (x =? c); [|discriminate H].
    simpl in H |- *. apply IH; [| simpl in Hl; lia | exact H].
    intros k Hlt. apply (Hk (S k)). simpl. lia.
Qed.

Lemma no_serial_after_replace : forall s k,
  occurs (u "serial") (replace_from (u "serial") (u "integer") k s) = false.
Proof.
  induction s as [|c s IH]; intros k; [reflexivity|].
  destruct k as [|k]; [|apply IH].
  change (replace_from (u "serial") (u "integer") 0 (c :: s))
    with (if starts_with (u "serial") (c :: s)
          then u "integer"
                 ++ replace_from (u "serial") (u "integer") 5 s
          else c :: replace_from (u "serial") (u "integer") 0 s).
  destruct (starts_with (u "serial") (c :: s)) eqn:E.
  - change (occurs (u "serial")
              (replace_from (u "serial") (u "integer") 5 s) = false).
    apply IH.
  - change (starts_with (u "serial")
              (c :: replace_from (u "serial") (u "integer") 0 s)
            || occurs (u "serial")
                 (replace_from (u "serial") (u "integer") 0 s) = false).
    rewrite IH, orb_false_r.
    destruct (starts_with (u "serial")
                (c :: replace_from (u "serial") (u "integer") 0 s)) eqn:F;
      [|reflexivity].
    rewrite <- E.
    change (starts_with (u "serial") (c :: ?x))
      with ((115 =? c) && starts_with (u "erial") x) in F |- *.
    apply andb_true_iff in F. destruct F as [F1 F2]. rewrite F1.
    symmetry. simpl andb.
    apply (replace_from_prefix (u "serial") (u "integer") (u "erial"));
      [| simpl; lia | exact F2].
    intros [|[|[|[|[|k]]]]] Hlt; try reflexivity. simpl in Hlt. lia.
Qed.

(** X18. Whatever the column names and types are, the column text that
    [create_columns] returns does not contain the word serial: the temporary
    table gets no sequence. *)
Theorem create_columns_has_no_serial (column_def : list (str * str)) :
  occurs (u "serial") (create_columns column_def) = false.
Proof. unfold create_columns, replace. apply no_serial_after_replace. Qed.

Lemma starts_with_occurs p s : starts_with p s = true -> occurs p s = true.
Proof.
  destruct s as [|c s]; simpl; [auto|]. intros H.
  change (starts_with p (c :: s) || occurs p s = true).
  now rewrite H.
Qed.

Lemma occurs_tail x p : forall s,
  occurs (x :: p) s = true -> occurs p s = true.
Proof.
  induction s as [|c s IH]; [discriminate|].
  change (starts_with (x :: p) (c :: s) || occurs (x :: p) s = true
          -> starts_with p (c :: s) || occurs p s = true).
  intros H. apply orb_true_iff in H. apply orb_true_iff. right.
  destruct H as [H|H]; [|now apply IH].
  simpl in H. apply andb_true_iff in H. now apply starts_with_occurs.
Qed.

Lemma occurs_suffix a p s :
  occurs p s = false -> occurs (a ++ p) s = false.
Proof.
  induction a as [|x a IH]; intros H; [exact H|].
  destruct (occurs ((x :: a) ++ p) s) eqn:E; [|reflexivity].
  change ((x :: a) ++ p) with (x :: (a ++ p)) in E.
  apply occurs_tail in E. rewrite (IH H) in E. discriminate E.
Qed.

Lemma replace_absent old new : forall s,
  occurs old s = false -> replace old new s = s.
Proof.
  intros s H. unfold replace. destruct old as [|x old].
  - destruct s; discriminate H.
  - induction s as [|c s IH]; [reflexivity|].
    change (starts_with (x :: old) (c :: s) || occurs (x :: old) s = false)
      in H.
    apply orb_false_iff in H. destruct H as [H1 H2].
    change (replace_from (x :: old) new 0 (c :: s))
      with (if starts_with (x :: old) (c :: s)
            then new ++ replace_from (x :: old) new
                          (pred (List.length (x :: old))) s
            else c :: replace_from (x :: old) new 0 s).
    rewrite H1. f_equal. now apply IH.
Qed.

(** X19. Column definitions whose text does not contain the word serial are
    passed on unchanged: [create_columns] returns the names and types as
    they are, separated by commas. *)
Theorem create_columns_keeps_other_types (column_def : list (str * str)) :
  let text :=
    join (u ",") (map (fun kv => fst kv ++ u " " ++ snd kv) column_def) in
  occurs (u "serial") text = false ->
  create_columns column_def = text.
Proof.
  cbv zeta. intros H. unfold create_columns.
  rewrite (replace_absent (u "bigserial"));
    [|exact (occurs_suffix (u "big") _ _ H)].
  rewrite (replace_absent (u "smallserial"));
    [|exact (occurs_suffix (u "small") _ _ H)].
  now apply replace_absent.
Qed.

Lemma create_columns_keeps_other_types_witness :
  create_columns [(u "id", u "integer"); (u "name", u "varchar(100)")]
  = u "id integer,name varchar(100)".
Proof.
  apply (create_columns_keeps_other_types
           [(u "id", u "integer"); (u "name", u "varchar(100)")]).
  reflexivity.
Defined.

(** ** The bulk update orchestrator *)

Lemma filter_execute_writes chunks tail :
  filter is_execute (map EPipeWrite chunks ++ tail) = filter is_execute tail.
Proof. induction chunks; simpl; auto. Qed.

Lemma existsb_bulk_writes chunks tail :
  existsb is_bulk_update (map EPipeWrite chunks ++ tail)
  = existsb is_bulk_update tail.
Proof. induction chunks; simpl; auto. Qed.

(** [copy_from] itself executes no statement and delegates nothing. *)
Lemma copy_from_no_statements py_repr {O} tname columns (get : O -> list pyval)
    encs encoding data :
  filter is_execute
    (fst (copy_from py_repr tname columns get encs encoding data)) = [] /\
  existsb is_bulk_update
    (fst (copy_from py_repr tname columns get encs encoding data)) = false.
Proof.
  destruct (copy_from_cases py_repr tname columns get encs encoding data)
    as [(chunks & E)|[(chunks & e & E)|[(content & E)|[E|(e & E)]]]];
    rewrite E; simpl; try (split; reflexivity).
  - now rewrite filter_execute_writes, existsb_bulk_writes.
  - rewrite <- (app_nil_r (map EPipeWrite chunks)).
    now rewrite filter_execute_writes, existsb_bulk_writes.
Qed.

Lemma bind_lift_ok {A B} (a : A) (k : A -> io B) : bind (lift (Ok a)) k = k a.
Proof. unfold bind, lift. now destruct (k a). Qed.

Lemma bind_lift_raise {A B} e (k : A -> io B) :
  bind (lift (Raise e)) k = ([], Raise e).
Proof. reflexivity. Qed.

Lemma split_fieldnames_all_non_local B : forall fieldnames non_local,
  split_fieldnames B fieldnames = Ok (non_local, []) ->
  non_local = fieldnames.
Proof.
  induction fieldnames as [|n rest IH]; simpl; intros nl H.
  - now inversion H.
  - destruct (get_field B n) as [f|e]; [|discriminate].
    destruct (split_fieldnames B rest) as [[nl' loc']|e]; [|discriminate].
    destruct (negb (field_in f (local_fields B))); inversion H; subst.
    f_equal. now apply IH.
Qed.


Lemma split_fieldnames_non_local B : forall fieldnames,
  Forall (fun n => exists f, get_field B n = Ok f /\
                             field_in f (local_fields B) = false)
    fieldnames ->
  split_fieldnames B fieldnames = Ok (fieldnames, []).
Proof.
  induction 1 as [|n rest (f & Hf & Hl) _ IH]; simpl; [reflexivity|].
  now rewrite Hf, IH, Hl.
Qed.

(** X21. When none of the named fields is a local field of the model, for
    instance when all are inherited from a parent model, [copy_update] is
    [bulk_update]: it hands over all the names and returns what
    [bulk_update] returns; no transaction is opened, no encoder is looked
    up and the objects are not read. *)
Theorem copy_update_delegates_non_local py_repr ENC B objs fieldnames
    field_encoders encoding :
  Forall (fun n => exists f, get_field B n = Ok f /\
                             field_in f (local_fields B) = false)
    fieldnames ->
  copy_update py_repr ENC B objs fieldnames field_encoders encoding
  = ([EBulkUpdate fieldnames], Ok (bulk_update_result B)).
Proof.
  intros H. unfold copy_update.
  now rewrite (split_fieldnames_non_local B fieldnames H), bind_lift_ok.
Qed.

Lemma copy_update_delegates_non_local_witness :
  copy_update Examples.container_repr [] Examples.restaurants []
    [u "name"] None None
  = ([EBulkUpdate [u "name"]], Ok (Some 1%Z)).
Proof.
  apply (copy_update_delegates_non_local Examples.container_repr []
           Examples.restaurants [] [u "name"] None None).
  constructor; [|constructor].
  exists Examples.place_name. split; reflexivity.
Defined.

(** X22. The codec is looked up late: with no [encoding] argument and a
    connection encoding that the table [CONNECTION_ENCODINGS] does not list,
    [copy_update] raises [KeyError] only after it has opened the
    transaction and created the temporary table; no record is encoded and
    the transaction is rolled back. *)
Theorem unknown_connection_encoding py_repr ENC B objs fieldnames encoding
    non_local x local fields resolved :
  split_fieldnames B fieldnames = Ok (non_local, x :: local) ->
  map_res (get_field B) (x :: local) = Ok fields ->
  map_res (get_encoder ENC) (pk B :: fields) = Ok resolved ->
  encoding = None \/ encoding = Some EmptyString ->
  dict_get CONNECTION_ENCODINGS (connection_encoding B) = None ->
  let temp := u "temp_cu_" ++ db_table B in
  copy_update py_repr ENC B objs fieldnames None encoding
  = ([EAtomicEnter;
      EExecute (u "DROP TABLE IF EXISTS " ++ dq temp);
      EExecute (u "CREATE TEMPORARY TABLE " ++ dq temp ++ u " ("
                  ++ create_columns
                       (map (fun f => (column f, db_type f))
                          (pk B :: fields))
                  ++ u ")");
      EAtomicExit false],
     Raise (KeyError (u (connection_encoding B)))).
Proof.
  intros Hs Hf Hr He Hd. cbv zeta. unfold copy_update.
  rewrite Hs, bind_lift_ok, Hf, bind_lift_ok, Hr, bind_lift_ok, bind_lift_ok.
  rewrite Hd. destruct He as [->| ->]; reflexivity.
Qed.

Lemma unknown_connection_encoding_witness :
  exists create,
    copy_update Examples.container_repr (ENCODERS Examples.no_dumps)
      (Examples.on_connection "EUC_TW") [Examples.ann] [u "name"] None None
    = ([EAtomicEnter;
        EExecute (u "DROP TABLE IF EXISTS " ++ dq (u "temp_cu_app_author"));
        EExecute create;
        EAtomicExit false],
       Raise (KeyError (u "EUC_TW"))).
Proof.
  eexists.
  apply (unknown_connection_encoding Examples.container_repr
           (ENCODERS Examples.no_dumps) (Examples.on_connection "EUC_TW")
           [Examples.ann] [u "name"] None [] (u "name") []
           [Examples.author_name] [Int; Text]).
  - reflexivity.
  - reflexivity.
  - reflexivity.
  - now left.
  - reflexivity.
Defined.

Lemma split_fieldnames_unknown B before name after e :
  Forall (fun n => exists f, get_field B n = Ok f) before ->
  get_field B name = Raise e ->
  split_fieldnames B (before ++ name :: after) = Raise e.
Proof.
  induction 1 as [|n rest (f & Hf) _ IH]; intros He; simpl.
  - now rewrite He.
  - now rewrite Hf, IH.
Qed.

Lemma get_encoder_raises reg f e :
  get_encoder reg f = Raise e -> exists msg, e = NotImplementedError msg.
Proof.
  rewrite get_encoder_final.
  generalize (null (final_target f)) (label (final_target f)).
  induction (mro (final_target f)) as [|c cs IH]; simpl; intros n l H.
  - inversion H. eexists; reflexivity.
  - destruct (dict_get reg c); [discriminate|]. now apply (IH n l).
Qed.

Lemma map_res_raises {A B} (f : A -> res B) x e : forall l,
  In x l -> f x = Raise e ->
  exists y e', In y l /\ f y = Raise e' /\ map_res f l = Raise e'.
Proof.
  induction l as [|a l IH]; intros Hin Hx; [destruct Hin|].
  simpl. destruct (f a) as [b|ea] eqn:Ha.
  - destruct Hin as [->|Hin]; [congruence|].
    destruct (IH Hin Hx) as (y & e' & Hy & Hfy & Hm).
    exists y, e'. rewrite Hm. split; [now right|]. split; [exact Hfy|reflexivity].
  - exists a, ea. split; [now left|]. split; [exact Ha|reflexivity].
Qed.

(** X23. Validation comes before any database work.  A name that is not a
    field of the model makes [copy_update] raise the lookup error of the
    first such name, and a local field, or the primary key, none of whose
    classes is registered makes it raise [NotImplementedError]; in both
    cases no transaction was opened, no statement executed and nothing
    handed to [bulk_update]. *)
Theorem validation_precedes_database py_repr ENC B objs field_encoders
    encoding :
  (forall before name after e,
      Forall (fun n => exists f, get_field B n = Ok f) before ->
      get_field B name = Raise e ->
      copy_update py_repr ENC B objs (before ++ name :: after)
        field_encoders encoding
      = ([], Raise e)) /\
  (forall fieldnames non_local x local fields f,
      split_fieldnames B fieldnames = Ok (non_local, x :: local) ->
      map_res (get_field B) (x :: local) = Ok fields ->
      In f (pk B :: fields) ->
      Forall (fun c => dict_get ENC c = None) (mro (final_target f)) ->
      exists msg,
        copy_update py_repr ENC B objs fieldnames field_encoders encoding
        = ([], Raise (NotImplementedError msg))).
Proof.
  split.
  - intros before name after e Hb He. unfold copy_update.
    now rewrite (split_fieldnames_unknown B before name after e Hb He).
  - intros fieldnames nl x loc fields f Hs Hf Hin Hn.
    assert (Hg : get_encoder ENC f
                 = Raise (NotImplementedError
                            (u "no suitable encoder found for field "
                               ++ label (final_target f)))).
    { rewrite get_encoder_final. now apply get_encoder_mro_none. }
    destruct (map_res_raises (get_encoder ENC) f _ _ Hin Hg)
      as (y & e' & _ & Hy & Hm).
    destruct (get_encoder_raises _ _ _ Hy) as (msg & ->).
    exists msg.
    now apply (copy_update_resolution_failure py_repr ENC B objs fieldnames
                 field_encoders encoding nl x loc fields _ Hs Hf Hm).
Qed.

Lemma validation_precedes_database_witness :
  copy_update Examples.container_repr (ENCODERS Examples.no_dumps)
    Examples.authors [Examples.ann] ([u "name"] ++ u "nope" :: [])
    None None
  = ([], Raise (FieldDoesNotExist (u "nope"))) /\
  exists msg,
    copy_update Examples.container_repr [] Examples.authors [Examples.ann]
      [u "name"] None None
    = ([], Raise (NotImplementedError msg)).
Proof.
  destruct (validation_precedes_database Examples.container_repr
              (ENCODERS Examples.no_dumps) Examples.authors [Examples.ann]
              None None) as [Ha _].
  destruct (validation_precedes_database Examples.container_repr
              [] Examples.authors [Examples.ann] None None) as [_ Hb].
  split.
  - apply Ha; [|reflexivity].
    constructor; [|constructor]. eexists; reflexivity.
  - apply (Hb [u "name"] [] (u "name") [] [Examples.author_name]
             Examples.author_name).
    + reflexivity.
    + reflexivity.
    + right. now left.
    + repeat constructor.
Defined.

Lemma HStore_text_is_clean_witness :
  exists s,
    HStore (VDict (hstore_items [(u "k", Some [9])])) [] = Ok (VStr s, [])
    /\ ~ In 9 s.
Proof.
  destruct (HStore_text_is_clean [(u "k", Some [9])] []) as (s & H & Hc & _).
  exists s. split; [exact H|]. apply Hc. reflexivity.
Defined.
